(** * xortool: key-length estimation and key guessing for repeating-key XOR

    A shallow embedding of [xortool.py] (Python 2) and the properties of its
    two analyses:
    - the key-length estimator ([count_equals], [calculate_fitnesses],
      [get_max_fitnessed_key_length], [guess_key_length]);
    - the key guesser ([chars_count_at_offset], [guess_keys], [all_keys],
      [guess_probable_keys]).

    Conventions of the embedding.
    - A Python 2 [str] is a [list byte]; a Python [int] is a [Z].
    - A [dict] from characters to counts is a [gmap byte Z].  The order in
      which Python iterates over a dict is not specified; the model iterates
      in the order of [map_to_list], and nothing proved here depends on it.
    - A Python [float] is a real number: the rounding of IEEE arithmetic is
      not modelled, so [float(n) / (64 + k ** 0.5)] is the exact quotient.
    - A function that can raise returns a [result]; the exceptions are the
      ones the interpreter raises for the operations used.
    - The global dictionary [PARAMETERS] is a record passed explicitly; the
      function that updates it returns the new record.
    - [print] statements are left out: they write to standard output and do
      not influence any value computed here. *)

From Stdlib Require Import ZArith List Lia String Reals Lra.
From Stdlib.Strings Require Import Byte.
From stdpp Require Import base option list gmap fin_maps sorting.
From Equations Require Import Equations.
Import ListNotations.

Open Scope Z_scope.

(** ** Exceptions *)

Inductive exn : Type :=
| ValueError (msg : string)
| IndexError (msg : string)
| KeyError
| TypeError
| SystemExit (msg : string).

Inductive result (A : Type) : Type :=
| Ok (a : A)
| Raise (e : exn).

Arguments Ok {A} a.
Arguments Raise {A} e.

#[global] Instance result_ret : MRet result := fun A a => Ok a.
#[global] Instance result_bind : MBind result := fun A B f m =>
  match m with
  | Ok a => f a
  | Raise e => Raise e
  end.

(** A [for] loop whose body can raise: the state is threaded through the
    elements, and the first exception ends the loop. *)
Fixpoint for_loop {S A : Type} (body : S -> A -> result S) (s : S) (l : list A)
  : result S :=
  match l with
  | [] => Ok s
  | x :: l' => s' ← body s x; for_loop body s' l'
  end.

(** ** Python built-ins *)

Definition len {A : Type} (l : list A) : Z := Z.of_nat (length l).

(** Number of elements of [range(start, stop, step)] for [step <> 0]. *)
Definition range_len (start stop step : Z) : nat :=
  if 0 <? step then Z.to_nat ((stop - start + step - 1) / step)
  else Z.to_nat ((start - stop - step - 1) / (- step)).

Definition range3 (start stop step : Z) : result (list Z) :=
  if step =? 0 then Raise (ValueError "range() step argument must not be zero")
  else Ok ((fun i : nat => start + Z.of_nat i * step)
             <$> seq 0 (range_len start stop step)).

Definition range2 (start stop : Z) : list Z := seqZ start (stop - start).

Definition range (stop : Z) : list Z := range2 0 stop.

(** Index normalisation of [l[i]]: a negative index counts from the end. *)
Definition py_index {A : Type} (l : list A) (i : Z) : result nat :=
  let j := if i <? 0 then i + len l else i in
  if (j <? 0) || (len l <=? j)
  then Raise (IndexError "index out of range")
  else Ok (Z.to_nat j).

Definition getitem {A : Type} (l : list A) (i : Z) : result A :=
  j ← py_index l i;
  match l !! j with
  | Some x => Ok x
  | None => Raise (IndexError "index out of range")
  end.

Definition setitem {A : Type} (l : list A) (i : Z) (x : A) : result (list A) :=
  j ← py_index l i; Ok (<[j := x]> l).

Definition py_max (l : list Z) : result Z :=
  match l with
  | [] => Raise (ValueError "max() arg is an empty sequence")
  | x :: l' => Ok (foldl Z.max x l')
  end.

Definition ord (c : byte) : Z := Z.of_N (Byte.to_N c).

Definition chr (n : Z) : result byte :=
  if (n <? 0) || (256 <=? n) then Raise (ValueError "chr() arg not in range(256)")
  else match Byte.of_N (Z.to_N n) with
       | Some c => Ok c
       | None => Raise (ValueError "chr() arg not in range(256)")
       end.

(** ** Dictionaries keyed by characters *)

#[global] Instance byte_eq_dec : EqDecision byte.
Proof.
  intros x y. destruct (N.eq_dec (Byte.to_N x) (Byte.to_N y)) as [H | H].
  - left. apply (f_equal Byte.of_N) in H. rewrite !Byte.of_to_N in H. congruence.
  - right. congruence.
Defined.

#[global] Instance byte_countable : Countable byte :=
  inj_countable Byte.to_N Byte.of_N Byte.of_to_N.

Definition dict_keys (d : gmap byte Z) : list byte := (map_to_list d).*1.
Definition dict_values (d : gmap byte Z) : list Z := (map_to_list d).*2.

Definition dict_get (d : gmap byte Z) (c : byte) : result Z :=
  match d !! c with
  | Some n => Ok n
  | None => Raise KeyError
  end.

(** ** The offset frequency analyser *)

(** Body of the loop of [chars_count_at_offset]. *)
Definition count_char (text : list byte) (chars_count : gmap byte Z) (pos : Z)
  : result (gmap byte Z) :=
  c ← getitem text pos;
  match chars_count !! c with
  | Some n => Ok (<[c := n + 1]> chars_count)
  | None => Ok (<[c := 1]> chars_count)
  end.

Definition chars_count_at_offset (text : list byte) (key_length offset : Z)
  : result (gmap byte Z) :=
  positions ← range3 offset (len text) key_length;
  for_loop (count_char text) ∅ positions.

(** ** The coincidence counter *)

Definition count_equals_body (text : list byte) (key_length : Z)
  (equals_count offset : Z) : result Z :=
  chars_count ← chars_count_at_offset text key_length offset;
  m ← py_max (dict_values chars_count);
  Ok (equals_count + (m - 1)).

Definition count_equals (text : list byte) (key_length : Z) : result Z :=
  if len text <=? key_length then Ok 0
  else for_loop (count_equals_body text key_length) 0 (range key_length).

(** ** Configuration *)

(** The entries of the global [PARAMETERS] that the analyses read.  An option
    that was not given on the command line is [None]. *)
Record PARAMETERS : Type := {
  known_key_length : option Z;
  most_frequent_char : option Z;
  max_key_length : Z
}.

Definition set_known_key_length (P : PARAMETERS) (k : Z) : PARAMETERS :=
  {| known_key_length := Some k;
     most_frequent_char := most_frequent_char P;
     max_key_length := max_key_length P |}.

(** A configuration entry used as an integer. *)
Definition as_int (o : option Z) : result Z :=
  match o with
  | Some k => Ok k
  | None => Raise TypeError
  end.

(** Truth value of [None] or an integer in a condition. *)
Definition truthy (o : option Z) : bool :=
  match o with
  | Some k => negb (k =? 0)
  | None => false
  end.

(** ** The key-length estimator *)

Definition Rltb (x y : R) : bool := if Rlt_dec x y then true else false.

(** [k ** 0.5]: a negative base raises. *)
Definition pow_half (k : Z) : result R :=
  if k <? 0
  then Raise (ValueError "negative number cannot be raised to a fractional power")
  else Ok (sqrt (IZR k)).

(** [float(fitness) / (64 + key_length ** 0.5)] *)
Definition normalize (fitness key_length : Z) : result R :=
  root ← pow_half key_length;
  Ok (IZR fitness / (64 + root))%R.

(** The three local variables of [calculate_fitnesses]. *)
Record sweep : Type := {
  pprev : R;
  prev : R;
  fitnesses : list (Z * R)
}.

Definition sweep_init : sweep := {| pprev := 0; prev := 0; fitnesses := [] |}.

Definition fitness_step (text : list byte) (st : sweep) (key_length : Z)
  : result sweep :=
  fitness ← count_equals text key_length;
  fitness ← normalize fitness key_length;
  let fitnesses' :=
    if Rltb (pprev st) (prev st) && Rltb fitness (prev st)
    then fitnesses st ++ [(key_length - 1, prev st)]
    else fitnesses st in
  Ok {| pprev := prev st; prev := fitness; fitnesses := fitnesses' |}.

Definition calculate_fitnesses (P : PARAMETERS) (text : list byte)
  : result (list (Z * R)) :=
  st ← for_loop (fitness_step text) sweep_init (range2 1 (max_key_length P + 1));
  Ok (fitnesses st).

Definition max_fitness_step (st : R * Z) (entry : Z * R) : R * Z :=
  if Rltb (fst st) (snd entry) then (snd entry, fst entry) else st.

Definition get_max_fitnessed_key_length (fitnesses : list (Z * R)) : Z :=
  snd (foldl max_fitness_step (0%R, 0) fitnesses).

Definition enumerate {A : Type} (l : list A) : list (Z * A) :=
  zip (range (len l)) l.

Definition count_divizor (key_length : Z) (divizors_counts : list Z) (number : Z)
  : result (list Z) :=
  if key_length mod number =? 0
  then n ← getitem divizors_counts number; setitem divizors_counts number (n + 1)
  else Ok divizors_counts.

Definition guess_and_print_divizors (P : PARAMETERS) (fitnesses : list (Z * R))
  : result Z :=
  let divizors_counts := (fun _ : Z => 0) <$> range (max_key_length P + 1) in
  divizors_counts ←
    for_loop (fun dc (entry : Z * R) =>
                for_loop (count_divizor (fst entry)) dc (range2 3 (fst entry + 1)))
             divizors_counts fitnesses;
  max_divizors ← py_max divizors_counts;
  Ok (foldl (fun ret (e : Z * Z) => if snd e =? max_divizors then fst e else ret)
            2 (enumerate divizors_counts)).

Definition guess_key_length (P : PARAMETERS) (text : list byte) : result Z :=
  fitnesses ← calculate_fitnesses P text;
  _ ← guess_and_print_divizors P fitnesses;
  Ok (get_max_fitnessed_key_length fitnesses).

Definition update_key_length (P : PARAMETERS) (text : list byte)
  : result PARAMETERS :=
  if truthy (known_key_length P) then Ok P
  else k ← guess_key_length P text; Ok (set_known_key_length P k).

(** ** The key guesser *)

Equations all_keys (key_possible_bytes : list (list byte)) (key_part : list byte)
  (offset : nat) : list (list byte)
  by wf (length key_possible_bytes - offset)%nat lt :=
  all_keys key_possible_bytes key_part offset
    with le_lt_dec (length key_possible_bytes) offset := {
    | left _ => [key_part]
    | right _ =>
        foldl (fun keys c =>
                 keys ++ all_keys key_possible_bytes (key_part ++ [c]) (S offset))
              [] (nth offset key_possible_bytes []) }.
Next Obligation. lia. Qed.

(** Inner loop of [guess_keys]: the characters of one offset that reach the
    maximal count, each xored with the most frequent character. *)
Definition possible_byte (most_char : option Z) (chars_count : gmap byte Z)
  (max_count offset : Z) (key_possible_bytes : list (list byte)) (char : byte)
  : result (list (list byte)) :=
  n ← dict_get chars_count char;
  if max_count <=? n then
    mc ← as_int most_char;
    c ← chr (Z.lxor (ord char) mc);
    bytes ← getitem key_possible_bytes offset;
    setitem key_possible_bytes offset (bytes ++ [c])
  else Ok key_possible_bytes.

Definition guess_keys_body (text : list byte) (key_length : Z)
  (most_char : option Z) (key_possible_bytes : list (list byte)) (offset : Z)
  : result (list (list byte)) :=
  chars_count ← chars_count_at_offset text key_length offset;
  max_count ← py_max (dict_values chars_count);
  for_loop (possible_byte most_char chars_count max_count offset)
           key_possible_bytes (dict_keys chars_count).

Definition guess_keys (P : PARAMETERS) (text : list byte)
  : result (list (list byte)) :=
  key_length ← as_int (known_key_length P);
  let most_char := most_frequent_char P in
  let key_possible_bytes := (fun _ : Z => @nil byte) <$> range key_length in
  key_possible_bytes ←
    for_loop (guess_keys_body text key_length most_char)
             key_possible_bytes (range key_length);
  Ok (all_keys key_possible_bytes [] 0).

(** Modelled from the spec: [die] lives in [routine.py], which is not part of
    the sources.  The spec calls the missing most frequent character a fatal
    failure reported to the user with no partial output, so [die] ends the
    run with the message it is given. *)
Definition die {A : Type} (msg : string) : result A := Raise (SystemExit msg).

Definition guess_probable_keys (P : PARAMETERS) (text : list byte)
  : result (list (list byte)) :=
  match most_frequent_char P with
  | None => die "Most possible char is needed to guess the key!"
  | Some _ => guess_keys P text
  end.

(** The analysis part of [main]: the key length is guessed when it is not
    known, then the keys are guessed.  Loading the ciphertext and writing
    the plaintexts are outside this development. *)
Definition main (P : PARAMETERS) (ciphertext : list byte)
  : result (list (list byte)) :=
  P' ← update_key_length P ciphertext;
  guess_probable_keys P' ciphertext.

(** ** Reference definitions used to state the properties *)

(** [ceil (a / b)] on integers, for [b > 0]. *)
Definition ceil_div (a b : Z) : Z := - ((- a) / b).

Definition sum_Z (l : list Z) : Z := foldr Z.add 0 l.

(** Total of the counts of a frequency table. *)
Definition dict_total (d : gmap byte Z) : Z := sum_Z (dict_values d).

(** The character stored at a position of the text. *)
Definition char_at (text : list byte) (pos : Z) : option byte :=
  text !! Z.to_nat pos.

(** The positions of the text congruent to [offset] modulo [key_length]. *)
Definition residue_class (text : list byte) (key_length offset : Z) : list Z :=
  filter (fun pos => pos mod key_length = offset) (range (len text)).

(** The byte histogram of a residue class: how many of its positions hold
    the byte [b]. *)
Definition histogram (text : list byte) (key_length offset : Z) (b : byte) : nat :=
  length (filter (fun pos => char_at text pos = Some b)
                 (residue_class text key_length offset)).

Definition all_bytes : list byte :=
  omap Byte.of_N (N.of_nat <$> seq 0 256).

(** The maximum count of that histogram. *)
Definition histogram_max (text : list byte) (key_length offset : Z) : Z :=
  Z.of_nat (max_list (histogram text key_length offset <$> all_bytes)).

(** The coincidence count as the specification words it. *)
Definition spec_count_equals (text : list byte) (key_length : Z) : Z :=
  if len text <=? key_length then 0
  else sum_Z ((fun offset => histogram_max text key_length offset - 1)
                <$> range key_length).

(** The positions visited by [chars_count_at_offset]. *)
Definition positions (offset stop key_length : Z) : list Z :=
  (fun i : nat => offset + Z.of_nat i * key_length)
    <$> seq 0 (range_len offset stop key_length).

(** The characters read at a list of positions. *)
Definition chars_at (text : list byte) (ps : list Z) : list byte :=
  omap (char_at text) ps.

(** The dictionary built from a list of characters, one increment each. *)
Definition tally_step (d : gmap byte Z) (c : byte) : gmap byte Z :=
  match d !! c with
  | Some n => <[c := n + 1]> d
  | None => <[c := 1]> d
  end.

Definition tally (cs : list byte) (d : gmap byte Z) : gmap byte Z :=
  foldl tally_step d cs.

Definition occurrences (b : byte) (cs : list byte) : nat :=
  length (filter (fun c => c = b) cs).

(** The largest number of occurrences of a byte in a list of characters. *)
Definition max_occurrences (cs : list byte) : nat :=
  max_list ((fun b => occurrences b cs) <$> all_bytes).

(** The counts of all the frequency tables of a key length, added up. *)
Definition total_count (text : list byte) (key_length : Z) : result Z :=
  for_loop (fun total offset =>
              d ← chars_count_at_offset text key_length offset;
              Ok (total + dict_total d))
           0 (range key_length).

(** The fitness curve: the normalised coincidence count at a key length,
    and 0 below the first candidate (the initial value of [prev] and
    [pprev]). *)
Definition fitness_at (text : list byte) (key_length : Z) : R :=
  if key_length <? 1 then 0%R
  else match count_equals text key_length ≫= (fun n => normalize n key_length) with
       | Ok f => f
       | Raise _ => 0%R
       end.

#[global] Instance Rlt_decision (x y : R) : Decision (x < y)%R := Rlt_dec x y.

(** A key length whose fitness is strictly above that of both neighbours. *)
Definition is_peak (text : list byte) (key_length : Z) : Prop :=
  (fitness_at text (key_length - 1) < fitness_at text key_length)%R
  /\ (fitness_at text (key_length + 1) < fitness_at text key_length)%R.

#[global] Instance is_peak_decision (text : list byte) (key_length : Z) :
  Decision (is_peak text key_length).
Proof. unfold is_peak. apply _. Defined.

(** The strict local maxima among the key lengths [1 .. bound - 1], with
    their fitness, in ascending order. *)
Definition local_maxima (text : list byte) (bound : Z) : list (Z * R) :=
  (fun key_length => (key_length, fitness_at text key_length))
    <$> filter (is_peak text) (range2 1 bound).

(** The state of the sweep after the candidate lengths [1 .. n]. *)
Definition sweep_after (text : list byte) (n : Z) : result sweep :=
  for_loop (fitness_step text) sweep_init (range2 1 (n + 1)).

Definition text_of (s : string) : list byte := list_byte_of_string s.

(** The byte whose code is the code of [c] xored with [most_char]. *)
Definition xor_byte (most_char : Z) (c : byte) : byte :=
  default c (Byte.of_N (Z.to_N (Z.lxor (ord c) most_char))).

(** The count a frequency table holds for a character, 0 when absent. *)
Definition count_of (d : gmap byte Z) (c : byte) : Z := default 0 (d !! c).

(** The bytes one offset contributes to the key: the characters of the
    table that reach the maximal count, xored with the most frequent
    character, in the order the table is iterated. *)
Definition key_bytes (most_char : Z) (d : gmap byte Z) (max_count : Z)
  (keys : list byte) : list byte :=
  xor_byte most_char <$> filter (fun c => max_count <= count_of d c) keys.

(** The candidate set of an offset as the specification words it: the byte
    values whose count in the histogram of the offset equals the maximum
    count, each xored with the most frequent byte. *)
Definition is_candidate (text : list byte) (key_length most_char offset : Z)
  (k : byte) : Prop :=
  exists b, Z.of_nat (histogram text key_length offset b)
            = histogram_max text key_length offset
            /\ ord k = Z.lxor (ord b) most_char.

(** The bytes [guess_keys] collects for one offset. *)
Definition offset_bytes (text : list byte) (key_length most_char offset : Z)
  : list byte :=
  let d := tally (chars_at text (positions offset (len text) key_length)) ∅ in
  key_bytes most_char d (histogram_max text key_length offset) (dict_keys d).

Definition product (l : list nat) : nat := foldr Nat.mul 1%nat l.

Ltac split_all :=
  repeat match goal with |- _ /\ _ => split end.

(** A result other than the fatal exit of [die]. *)
Definition no_exit {A : Type} (r : result A) : Prop :=
  forall msg, r <> Raise (SystemExit msg).

(** ** Sample inputs *)

Definition text_a : list byte := text_of "a".

Definition text_aa : list byte := text_of "aa".

Definition text_abc : list byte := text_of "abcabcab".

(** No key length given, the space as most frequent character, key lengths
    probed up to 2. *)
Definition params_aa : PARAMETERS :=
  {| known_key_length := None; most_frequent_char := Some 32; max_key_length := 2 |}.

(** The key length 2 given, longer than the one-byte text [text_a]. *)
Definition params_long : PARAMETERS :=
  {| known_key_length := Some 2; most_frequent_char := Some 32; max_key_length := 65 |}.

(** The key length 3 given. *)
Definition params_abc : PARAMETERS :=
  {| known_key_length := Some 3; most_frequent_char := Some 32; max_key_length := 65 |}.

Definition table_example : list (Z * R) := [(3, 2%R); (6, 5%R); (9, 5%R)].

(** ** The sum of the reported fitnesses *)

Definition calculate_fitness_sum (fitnesses : list (Z * R)) : R :=
  foldl Rplus 0%R (snd <$> fitnesses).

(** ** Divisors of the reported lengths *)

(** How many entries of the table have a length that [number], at least 3,
    divides. *)
Definition divizor_count (table : list (Z * R)) (number : Z) : Z :=
  Z.of_nat (length (filter (fun entry : Z * R =>
                              3 <= number <= fst entry /\ fst entry mod number = 0)
                           table)).

(** ** Repeating-key encryption *)

(** [text] is [plain] encrypted with the repeating key [key]: the texts
    have the same length, and the byte of the text at a position is the
    byte of the plaintext there xored with the byte of the key at that
    position modulo the length of the key. *)
Definition repeating_key_xor (plain key text : list byte) : Prop :=
  len text = len plain /\
  forall pos p, 0 <= pos -> char_at plain pos = Some p ->
    exists k, char_at key (pos mod len key) = Some k
      /\ char_at text pos = Some (xor_byte (ord k) p).

(** Four spaces encrypted with the key ["ab"]. *)
Definition plain_spaces : list byte := text_of "    ".
Definition key_ab : list byte := text_of "ab".
Definition text_ABAB : list byte := text_of "ABAB".

Definition params_ab : PARAMETERS :=
  {| known_key_length := Some 2; most_frequent_char := Some 32; max_key_length := 65 |}.

(** * Properties *)

(** ** Loops and exceptions *)

Lemma bind_Ok {A B : Type} (f : A -> result B) (a : A) : (Ok a ≫= f) = f a.
Proof. reflexivity. Qed.

Lemma bind_Ok_inv {A B : Type} (f : A -> result B) (m : result A) (b : B) :
  (m ≫= f) = Ok b -> exists a, m = Ok a /\ f a = Ok b.
Proof. destruct m as [a | e]; simpl; [eauto | discriminate]. Qed.

Lemma for_loop_app {S A : Type} (body : S -> A -> result S) (s : S) (l k : list A) :
  for_loop body s (l ++ k) = (for_loop body s l ≫= fun s' => for_loop body s' k).
Proof.
  revert s. induction l as [| x l IH]; intros s; simpl; [reflexivity |].
  destruct (body s x) as [s' | e]; simpl; [apply IH | reflexivity].
Qed.

(** A loop whose body never raises on the elements it visits is a fold. *)
Lemma for_loop_pure {S A : Type} (body : S -> A -> result S) (f : S -> A -> S)
  (s : S) (l : list A) :
  (forall s' x, x ∈ l -> body s' x = Ok (f s' x)) ->
  for_loop body s l = Ok (foldl f s l).
Proof.
  revert s. induction l as [| x l IH]; intros s H; simpl; [reflexivity |].
  rewrite H by left. simpl. apply IH. intros s' y Hy. apply H. by right.
Qed.

(** ** Ranges *)

Lemma elem_of_range2 (start stop x : Z) : x ∈ range2 start stop <-> start <= x < stop.
Proof. unfold range2. rewrite elem_of_seqZ. lia. Qed.

Lemma elem_of_range (stop x : Z) : x ∈ range stop <-> 0 <= x < stop.
Proof. apply elem_of_range2. Qed.

Lemma range2_snoc (start stop : Z) :
  start <= stop -> range2 start (stop + 1) = range2 start stop ++ [stop].
Proof.
  intros H. unfold range2.
  replace (stop + 1 - start) with ((stop - start) + 1) by lia.
  rewrite seqZ_app by lia. f_equal.
  replace (start + (stop - start)) with stop by lia. reflexivity.
Qed.

Lemma range2_empty (start stop : Z) : stop <= start -> range2 start stop = [].
Proof. intros H. unfold range2. apply seqZ_nil. lia. Qed.

Lemma NoDup_range (stop : Z) : NoDup (range stop).
Proof. apply NoDup_seqZ. Qed.

Lemma length_range (stop : Z) : 0 <= stop -> len (range stop) = stop.
Proof. intros H. unfold len, range, range2. rewrite length_seqZ. lia. Qed.

Lemma range3_positions (offset stop key_length : Z) :
  key_length <> 0 ->
  range3 offset stop key_length = Ok (positions offset stop key_length).
Proof.
  intros H. unfold range3. destruct (Z.eqb_spec key_length 0); [lia | reflexivity].
Qed.

Lemma ceil_div_spec (a b : Z) :
  0 < b -> (ceil_div a b - 1) * b < a <= ceil_div a b * b.
Proof.
  intros Hb. unfold ceil_div.
  pose proof (Z.div_mod (- a) b ltac:(lia)) as Hdm.
  pose proof (Z.mod_pos_bound (- a) b Hb) as Hm. nia.
Qed.

Lemma ceil_div_floor (a b : Z) : 0 < b -> ceil_div a b = (a + b - 1) / b.
Proof.
  intros Hb. pose proof (ceil_div_spec a b Hb) as Hc.
  apply (Z.div_unique_pos _ _ _ (a + b - 1 - ceil_div a b * b)); lia.
Qed.

Lemma range_len_ceil (offset stop key_length : Z) :
  0 < key_length -> offset - key_length < stop ->
  Z.of_nat (range_len offset stop key_length) = ceil_div (stop - offset) key_length.
Proof.
  intros HL Hoff. unfold range_len.
  destruct (Z.ltb_spec 0 key_length); [| lia].
  rewrite <- ceil_div_floor by lia.
  pose proof (ceil_div_spec (stop - offset) key_length HL). rewrite Z2Nat.id; nia.
Qed.

Lemma elem_of_positions (offset stop key_length x : Z) :
  0 < key_length -> 0 <= offset < key_length -> 0 <= stop ->
  x ∈ positions offset stop key_length <->
  (0 <= x < stop /\ x mod key_length = offset).
Proof.
  intros HL Hoff Hstop. unfold positions. rewrite list_elem_of_fmap.
  pose proof (range_len_ceil offset stop key_length HL ltac:(lia)) as Hlen.
  pose proof (ceil_div_spec (stop - offset) key_length HL) as Hc.
  split.
  - intros (i & -> & Hi). apply elem_of_seq in Hi.
    split; [nia |].
    rewrite Z.mod_add by lia. apply Z.mod_small. lia.
  - intros [Hx Hmod].
    pose proof (Z.div_mod x key_length ltac:(lia)) as Hdm.
    assert (0 <= x / key_length) by (apply Z.div_pos; lia).
    exists (Z.to_nat (x / key_length)). split.
    + rewrite Z2Nat.id by lia. lia.
    + apply elem_of_seq. nia.
Qed.

Lemma NoDup_positions (offset stop key_length : Z) :
  key_length <> 0 -> NoDup (positions offset stop key_length).
Proof.
  intros HL. unfold positions. apply NoDup_fmap_2_strong; [| apply NoDup_seq].
  intros i j _ _ Heq. nia.
Qed.

(** The positions visited are the residue class of the offset. *)
Lemma positions_residue_class (text : list byte) (key_length offset : Z) :
  0 < key_length -> 0 <= offset < key_length ->
  positions offset (len text) key_length ≡ₚ residue_class text key_length offset.
Proof.
  intros HL Hoff. apply NoDup_Permutation.
  - apply NoDup_positions. lia.
  - apply NoDup_filter, NoDup_range.
  - intros x. rewrite elem_of_positions by (unfold len; lia).
    unfold residue_class. rewrite list_elem_of_filter, elem_of_range. tauto.
Qed.

(** ** Frequency tables *)

Lemma char_at_valid (text : list byte) (pos : Z) :
  0 <= pos < len text -> exists c, char_at text pos = Some c.
Proof.
  intros H. unfold char_at. apply lookup_lt_is_Some_2. unfold len in H. lia.
Qed.

Lemma py_index_valid {A : Type} (l : list A) (i : Z) :
  0 <= i < len l -> py_index l i = Ok (Z.to_nat i).
Proof.
  intros H. unfold py_index.
  assert ((i <? 0) = false) as Hneg by (apply Z.ltb_ge; lia).
  assert ((len l <=? i) = false) as Hlen by (apply Z.leb_gt; lia).
  rewrite Hneg. cbv zeta. by rewrite Hneg, Hlen.
Qed.

Lemma getitem_valid {A : Type} (l : list A) (i : Z) (x : A) :
  0 <= i < len l -> l !! Z.to_nat i = Some x -> getitem l i = Ok x.
Proof.
  intros H Hx. unfold getitem. rewrite py_index_valid by done.
  cbn. by rewrite Hx.
Qed.

Lemma setitem_valid {A : Type} (l : list A) (i : Z) (x : A) :
  0 <= i < len l -> setitem l i x = Ok (<[Z.to_nat i := x]> l).
Proof. intros H. unfold setitem. by rewrite py_index_valid. Qed.

Lemma getitem_char_at (text : list byte) (pos : Z) (c : byte) :
  0 <= pos < len text -> char_at text pos = Some c -> getitem text pos = Ok c.
Proof. intros H Hc. by apply getitem_valid. Qed.

Lemma count_char_valid (text : list byte) (d : gmap byte Z) (pos : Z) (c : byte) :
  0 <= pos < len text -> char_at text pos = Some c ->
  count_char text d pos = Ok (tally_step d c).
Proof.
  intros H Hc. unfold count_char. rewrite (getitem_char_at _ _ c) by done.
  simpl. unfold tally_step. by destruct (d !! c).
Qed.

Lemma chars_at_cons (text : list byte) (p : Z) (ps : list Z) :
  chars_at text (p :: ps)
  = match char_at text p with
    | Some c => c :: chars_at text ps
    | None => chars_at text ps
    end.
Proof. reflexivity. Qed.

Lemma count_loop_tally (text : list byte) (ps : list Z) (d : gmap byte Z) :
  Forall (fun pos => 0 <= pos < len text) ps ->
  for_loop (count_char text) d ps = Ok (tally (chars_at text ps) d).
Proof.
  intros H. revert d. induction H as [| p ps Hp _ IH]; intros d; [reflexivity |].
  destruct (char_at_valid text p Hp) as [c Hc].
  rewrite chars_at_cons, Hc. cbn [for_loop].
  rewrite (count_char_valid _ _ _ c) by done. rewrite bind_Ok. apply IH.
Qed.

Lemma length_chars_at (text : list byte) (ps : list Z) :
  Forall (fun pos => 0 <= pos < len text) ps ->
  length (chars_at text ps) = length ps.
Proof.
  induction 1 as [| p ps Hp _ IH]; [reflexivity |].
  destruct (char_at_valid text p Hp) as [c Hc].
  rewrite chars_at_cons, Hc. simpl. by rewrite IH.
Qed.

Lemma occurrences_chars_at (text : list byte) (ps : list Z) (b : byte) :
  occurrences b (chars_at text ps)
  = length (filter (fun pos => char_at text pos = Some b) ps).
Proof.
  unfold occurrences. induction ps as [| p ps IH]; [reflexivity |].
  rewrite chars_at_cons, (filter_cons _ p). destruct (char_at text p) as [c |] eqn:Hc.
  - rewrite filter_cons. destruct (decide (c = b)) as [-> | Hne].
    + rewrite decide_True by done. simpl. by rewrite IH.
    + rewrite decide_False by congruence. done.
  - rewrite decide_False by congruence. done.
Qed.

Lemma occurrences_cons (b c : byte) (cs : list byte) :
  occurrences b (c :: cs)
  = ((if decide (c = b) then 1 else 0) + occurrences b cs)%nat.
Proof. unfold occurrences. rewrite filter_cons. by destruct (decide (c = b)). Qed.

Lemma tally_step_lookup (d : gmap byte Z) (c b : byte) :
  tally_step d c !! b
  = if decide (c = b) then Some (default 0 (d !! b) + 1) else d !! b.
Proof.
  unfold tally_step. destruct (decide (c = b)) as [-> | Hne].
  - destruct (d !! b) as [n |]; by rewrite lookup_insert_eq.
  - destruct (d !! c) as [n |]; by rewrite lookup_insert_ne.
Qed.

Lemma tally_lookup (cs : list byte) (d : gmap byte Z) (b : byte) :
  tally cs d !! b
  = if decide (occurrences b cs = 0%nat) then d !! b
    else Some (default 0 (d !! b) + Z.of_nat (occurrences b cs)).
Proof.
  revert d. induction cs as [| c cs IH]; intros d; [reflexivity |].
  unfold tally in *. simpl. rewrite IH, tally_step_lookup, occurrences_cons.
  destruct (decide (c = b)) as [-> | Hne]; simpl.
  - destruct (decide (occurrences b cs = 0%nat)) as [-> | Hn]; simpl; f_equal; lia.
  - by destruct (decide (occurrences b cs = 0%nat)).
Qed.

Lemma tally_empty_lookup (cs : list byte) (b : byte) (n : Z) :
  tally cs ∅ !! b = Some n <-> n = Z.of_nat (occurrences b cs) /\ 0 < n.
Proof.
  rewrite tally_lookup, lookup_empty.
  destruct (decide (occurrences b cs = 0%nat)) as [H0 | Hn]; simpl.
  - split; [discriminate | lia].
  - split; [intros [= <-]; lia | intros [-> _]; done].
Qed.

#[global] Instance sum_Z_Permutation : Proper ((≡ₚ) ==> (=)) sum_Z.
Proof. induction 1; simpl; lia. Qed.

Lemma dict_total_insert (d : gmap byte Z) (c : byte) (n : Z) :
  d !! c = None -> dict_total (<[c := n]> d) = n + dict_total d.
Proof.
  intros H. unfold dict_total, dict_values.
  by rewrite (map_to_list_insert d c n H).
Qed.

Lemma dict_total_tally_step (d : gmap byte Z) (c : byte) :
  dict_total (tally_step d c) = dict_total d + 1.
Proof.
  unfold tally_step. destruct (d !! c) as [n |] eqn:Hc.
  - rewrite <- (insert_delete_eq d c (n + 1)).
    rewrite <- (insert_delete_id d c n Hc) at 2.
    rewrite !dict_total_insert by apply lookup_delete_eq. lia.
  - rewrite dict_total_insert by done. lia.
Qed.

Lemma dict_total_tally (cs : list byte) (d : gmap byte Z) :
  dict_total (tally cs d) = dict_total d + Z.of_nat (length cs).
Proof.
  revert d. induction cs as [| c cs IH]; intros d; simpl; [lia |].
  unfold tally in *. simpl. rewrite IH, dict_total_tally_step. lia.
Qed.

Lemma dict_total_empty : dict_total ∅ = 0.
Proof. unfold dict_total, dict_values. by rewrite map_to_list_empty. Qed.

(** What [chars_count_at_offset] returns for a positive key length and an
    offset below it: the tally of the characters of the residue class. *)
Lemma chars_count_at_offset_tally (text : list byte) (key_length offset : Z) :
  0 < key_length -> 0 <= offset < key_length ->
  chars_count_at_offset text key_length offset
  = Ok (tally (chars_at text (positions offset (len text) key_length)) ∅).
Proof.
  intros HL Hoff. unfold chars_count_at_offset.
  rewrite range3_positions by lia. simpl. apply count_loop_tally.
  apply Forall_forall. intros p Hp.
  apply elem_of_positions in Hp; unfold len; try lia. apply Hp.
Qed.

Lemma occurrences_histogram (text : list byte) (key_length offset : Z) (b : byte) :
  0 < key_length -> 0 <= offset < key_length ->
  occurrences b (chars_at text (positions offset (len text) key_length))
  = histogram text key_length offset b.
Proof.
  intros HL Hoff. rewrite occurrences_chars_at. unfold histogram.
  by rewrite (positions_residue_class text key_length offset HL Hoff).
Qed.

(** ** The maximum of a list and of a histogram *)

Lemma foldl_max_spec (l : list Z) (x : Z) :
  foldl Z.max x l ∈ x :: l /\ forall y, y ∈ x :: l -> y <= foldl Z.max x l.
Proof.
  revert x. induction l as [| z l IH]; intros x; simpl.
  - split; [left |]. intros y Hy. apply list_elem_of_singleton in Hy. lia.
  - destruct (IH (Z.max x z)) as [Hin Hub]. split.
    + apply elem_of_cons in Hin as [Heq | Hin].
      * rewrite Heq. destruct (Z.max_spec x z) as [[_ ->] | [_ ->]];
          [right; left | left].
      * right. by right.
    + intros y Hy. apply elem_of_cons in Hy as [-> | Hy].
      * specialize (Hub (Z.max x z) ltac:(left)). lia.
      * apply elem_of_cons in Hy as [-> | Hy].
        -- specialize (Hub (Z.max x z) ltac:(left)). lia.
        -- apply Hub. by right.
Qed.

Lemma py_max_Ok (l : list Z) (m : Z) :
  py_max l = Ok m <-> (m ∈ l /\ forall y, y ∈ l -> y <= m).
Proof.
  destruct l as [| x l]; simpl.
  - split; [discriminate |]. intros [H _]. by apply elem_of_nil in H.
  - pose proof (foldl_max_spec l x) as [Hin Hub]. split.
    + intros [= <-]. done.
    + intros [Hm Hle]. f_equal. specialize (Hub m Hm). specialize (Hle _ Hin). lia.
Qed.

Lemma elem_of_dict_values (d : gmap byte Z) (n : Z) :
  n ∈ dict_values d <-> exists c, d !! c = Some n.
Proof.
  unfold dict_values. rewrite list_elem_of_fmap. split.
  - intros ([c v] & -> & H). exists c. by apply elem_of_map_to_list in H.
  - intros [c H]. exists (c, n). split; [done |]. by apply elem_of_map_to_list.
Qed.

Lemma elem_of_dict_keys (d : gmap byte Z) (c : byte) :
  c ∈ dict_keys d <-> exists n, d !! c = Some n.
Proof.
  unfold dict_keys. rewrite list_elem_of_fmap. split.
  - intros ([c' v] & -> & H). exists v. by apply elem_of_map_to_list in H.
  - intros [n H]. exists (c, n). split; [done |]. by apply elem_of_map_to_list.
Qed.

Lemma elem_of_all_bytes (b : byte) : b ∈ all_bytes.
Proof.
  unfold all_bytes. apply list_elem_of_omap. exists (Byte.to_N b). split.
  - apply list_elem_of_fmap. exists (N.to_nat (Byte.to_N b)). split.
    + by rewrite N2Nat.id.
    + apply elem_of_seq. pose proof (Byte.to_N_bounded b). lia.
  - apply Byte.of_to_N.
Qed.

Lemma max_occurrences_ge (cs : list byte) (b : byte) :
  (occurrences b cs <= max_occurrences cs)%nat.
Proof.
  apply max_list_elem_of_le, list_elem_of_fmap. exists b.
  split; [done | apply elem_of_all_bytes].
Qed.

Lemma max_occurrences_attained (cs : list byte) :
  exists b, max_occurrences cs = occurrences b cs.
Proof.
  assert ((fun b => occurrences b cs) <$> all_bytes ≠ []) as Hne.
  { intros Hnil. apply fmap_nil_inv in Hnil.
    pose proof (elem_of_all_bytes x00) as H. rewrite Hnil in H.
    by apply elem_of_nil in H. }
  apply max_list_elem_of, list_elem_of_fmap in Hne as (b & Hb & _). eauto.
Qed.

Lemma max_occurrences_pos (cs : list byte) :
  cs <> [] -> (1 <= max_occurrences cs)%nat.
Proof.
  destruct cs as [| c cs]; [done |]. intros _.
  pose proof (max_occurrences_ge (c :: cs) c) as H.
  rewrite occurrences_cons, decide_True in H by done. lia.
Qed.

(** The maximum of the values of a tally is the largest number of
    occurrences; on an empty list of characters [max] raises. *)
Lemma py_max_tally (cs : list byte) :
  cs <> [] ->
  py_max (dict_values (tally cs ∅)) = Ok (Z.of_nat (max_occurrences cs)).
Proof.
  intros Hne. apply py_max_Ok. split.
  - destruct (max_occurrences_attained cs) as [b Hb].
    apply elem_of_dict_values. exists b. apply tally_empty_lookup.
    pose proof (max_occurrences_pos cs Hne). split; [by rewrite Hb | lia].
  - intros y Hy. apply elem_of_dict_values in Hy as [b Hb].
    apply tally_empty_lookup in Hb as [-> _].
    pose proof (max_occurrences_ge cs b). lia.
Qed.

Lemma tally_nil_values : dict_values (tally [] ∅) = [].
Proof. unfold dict_values, tally. simpl. by rewrite map_to_list_empty. Qed.

Lemma max_occurrences_histogram (text : list byte) (key_length offset : Z) :
  0 < key_length -> 0 <= offset < key_length ->
  Z.of_nat (max_occurrences (chars_at text (positions offset (len text) key_length)))
  = histogram_max text key_length offset.
Proof.
  intros HL Hoff. unfold max_occurrences, histogram_max. do 2 f_equal.
  apply list_fmap_ext. intros _ b _. by apply occurrences_histogram.
Qed.

Lemma positions_nonempty (text : list byte) (key_length offset : Z) :
  0 < key_length -> 0 <= offset < key_length -> offset < len text ->
  chars_at text (positions offset (len text) key_length) <> [].
Proof.
  intros HL Hoff Hlen Hnil.
  assert (offset ∈ positions offset (len text) key_length) as Hin.
  { apply elem_of_positions; unfold len in *; try lia.
    split; [lia | apply Z.mod_small; lia]. }
  apply (f_equal length) in Hnil. rewrite length_chars_at in Hnil.
  - destruct (positions offset (len text) key_length); [by apply elem_of_nil in Hin | done].
  - apply Forall_forall. intros p Hp.
    apply elem_of_positions in Hp; unfold len; try lia. apply Hp.
Qed.

(** One offset of the coincidence counter: the frequency table is not
    empty, its maximum exists and is the maximum of the histogram. *)
Lemma histogram_max_computed (text : list byte) (key_length offset : Z) :
  0 < key_length -> 0 <= offset < key_length -> offset < len text ->
  exists d, chars_count_at_offset text key_length offset = Ok d
    /\ dict_values d <> []
    /\ py_max (dict_values d) = Ok (histogram_max text key_length offset)
    /\ 1 <= histogram_max text key_length offset.
Proof.
  intros HL Hoff Hlen.
  pose proof (positions_nonempty text key_length offset HL Hoff Hlen) as Hne.
  pose proof (py_max_tally _ Hne) as Hmax.
  pose proof (max_occurrences_pos _ Hne) as Hpos.
  rewrite max_occurrences_histogram in Hmax by done.
  rewrite <- max_occurrences_histogram by done.
  eexists. split; [by apply chars_count_at_offset_tally |].
  split; [| split; [| lia]].
  - intros Hnil. rewrite Hnil in Hmax. discriminate.
  - by rewrite max_occurrences_histogram.
Qed.

(** ** The coincidence counter *)

Lemma foldl_add_sum_Z {A : Type} (f : A -> Z) (l : list A) (acc : Z) :
  foldl (fun a x => a + f x) acc l = acc + sum_Z (f <$> l).
Proof.
  revert acc. induction l as [| x l IH]; intros acc; csimpl; [lia |].
  rewrite IH. lia.
Qed.

Lemma count_equals_body_Ok (text : list byte) (key_length acc offset : Z) :
  0 < key_length -> 0 <= offset < key_length -> offset < len text ->
  count_equals_body text key_length acc offset
  = Ok (acc + (histogram_max text key_length offset - 1)).
Proof.
  intros HL Hoff Hlen. unfold count_equals_body.
  destruct (histogram_max_computed text key_length offset HL Hoff Hlen)
    as (d & -> & _ & Hmax & _).
  rewrite bind_Ok, Hmax. reflexivity.
Qed.

Lemma count_equals_refines (text : list byte) (key_length : Z) :
  1 <= key_length ->
  count_equals text key_length = Ok (spec_count_equals text key_length).
Proof.
  intros HL. unfold count_equals, spec_count_equals.
  destruct (Z.leb_spec (len text) key_length) as [Hge | Hlt]; [reflexivity |].
  rewrite (for_loop_pure _
             (fun acc offset => acc + (histogram_max text key_length offset - 1))).
  - by rewrite foldl_add_sum_Z.
  - intros acc offset Hoff. apply elem_of_range in Hoff.
    apply count_equals_body_Ok; lia.
Qed.

Lemma count_equals_nonneg (text : list byte) (key_length : Z) :
  1 <= key_length -> 0 <= spec_count_equals text key_length.
Proof.
  intros HL. unfold spec_count_equals.
  destruct (Z.leb_spec (len text) key_length) as [Hge | Hlt]; [lia |].
  assert (forall l, (forall x, x ∈ l -> 0 <= x) -> 0 <= sum_Z l) as Hsum.
  { induction l as [| x l IH]; simpl; intros H; [lia |].
    pose proof (H x ltac:(left)) as Hx.
    assert (0 <= sum_Z l) by (apply IH; intros y Hy; apply H; by right). lia. }
  apply Hsum. intros x Hx. apply list_elem_of_fmap in Hx as (off & -> & Hoff).
  apply elem_of_range in Hoff.
  destruct (histogram_max_computed text key_length off) as (_ & _ & _ & _ & H); lia.
Qed.

(** C3.  For a key length of at least one, the coincidence counter returns 0
    when the key length is at least the length of the ciphertext, and
    otherwise the sum over the offsets [0 .. key_length - 1] of the maximum
    count of the byte histogram of the positions congruent to the offset
    modulo the key length, minus one. *)
Theorem count_equals_spec (text : list byte) (key_length : Z) :
  1 <= key_length ->
  (len text <= key_length -> count_equals text key_length = Ok 0) /\
  (key_length < len text ->
   count_equals text key_length
   = Ok (sum_Z ((fun offset => histogram_max text key_length offset - 1)
                  <$> range key_length))).
Proof.
  intros HL. rewrite count_equals_refines by done. unfold spec_count_equals.
  split; intros H.
  - destruct (Z.leb_spec (len text) key_length); [reflexivity | lia].
  - destruct (Z.leb_spec (len text) key_length); [lia | reflexivity].
Qed.

Lemma count_equals_spec_witness :
  1 <= 3 /\
  count_equals text_abc 3
  = Ok (sum_Z ((fun offset => histogram_max text_abc 3 offset - 1)
                 <$> range 3)).
Proof.
  split; [lia |].
  apply (count_equals_spec text_abc 3); [lia | reflexivity].
Defined.

(** ** Totals of the frequency tables *)

Lemma sum_Z_app (l k : list Z) : sum_Z (l ++ k) = sum_Z l + sum_Z k.
Proof. induction l as [| x l IH]; simpl; lia. Qed.

Lemma sum_Z_fmap_add {A : Type} (f g : A -> Z) (l : list A) :
  sum_Z ((fun x => f x + g x) <$> l) = sum_Z (f <$> l) + sum_Z (g <$> l).
Proof. induction l as [| x l IH]; csimpl; lia. Qed.

Lemma sum_Z_indicator (r start : Z) (n : nat) :
  sum_Z ((fun offset => if decide (r = offset) then 1 else 0)
           <$> seqZ start (Z.of_nat n))
  = if decide (start <= r < start + Z.of_nat n) then 1 else 0.
Proof.
  induction n as [| n IH].
  - csimpl. by rewrite decide_False by lia.
  - rewrite seqZ_S, fmap_app, sum_Z_app, IH. csimpl.
    repeat case_decide; lia.
Qed.

(** Every position falls in exactly one residue class. *)
Lemma residue_classes_partition (l : list Z) (key_length : Z) :
  0 < key_length ->
  sum_Z ((fun offset =>
            Z.of_nat (length (filter (fun pos => pos mod key_length = offset) l)))
           <$> range key_length)
  = Z.of_nat (length l).
Proof.
  intros HL. induction l as [| p l IH]; csimpl.
  - induction (range key_length) as [| x k IHk]; csimpl; lia.
  - rewrite Nat2Z.inj_succ, <- IH.
    rewrite (list_fmap_ext _
      (fun offset => (if decide (p mod key_length = offset) then 1 else 0)
         + Z.of_nat (length (filter (fun pos => pos mod key_length = offset) l)))
      (range key_length)).
    + rewrite sum_Z_fmap_add. unfold range, range2.
      replace (key_length - 0) with (Z.of_nat (Z.to_nat key_length)) by lia.
      rewrite sum_Z_indicator.
      pose proof (Z.mod_pos_bound p key_length HL).
      rewrite decide_True by lia. lia.
    + intros _ offset _. rewrite filter_cons.
      destruct (decide (p mod key_length = offset)); simpl; lia.
Qed.

Lemma dict_total_at_offset (text : list byte) (key_length offset : Z) :
  0 < key_length -> 0 <= offset < key_length ->
  exists d, chars_count_at_offset text key_length offset = Ok d
    /\ dict_total d = Z.of_nat (length (residue_class text key_length offset))
    /\ dict_total d = ceil_div (len text - offset) key_length.
Proof.
  intros HL Hoff. eexists. split; [by apply chars_count_at_offset_tally |].
  rewrite dict_total_tally, dict_total_empty, length_chars_at.
  - split.
    + by rewrite (positions_residue_class text key_length offset).
    + unfold positions. rewrite length_fmap, length_seq.
      rewrite range_len_ceil; unfold len; lia.
  - apply Forall_forall. intros p Hp.
    apply elem_of_positions in Hp; unfold len; try lia. apply Hp.
Qed.

(** C7.  For a key length of at least one and an offset below it, the counts
    of the frequency table sum to [ceil ((len text - offset) / key_length)];
    added over all the offsets, these totals give the length of the text. *)
Theorem frequencies_total (text : list byte) (key_length : Z) :
  1 <= key_length ->
  (forall offset, 0 <= offset < key_length ->
     exists d, chars_count_at_offset text key_length offset = Ok d
       /\ dict_total d = ceil_div (len text - offset) key_length) /\
  total_count text key_length = Ok (len text).
Proof.
  intros HL. split.
  - intros offset Hoff.
    destruct (dict_total_at_offset text key_length offset) as (d & Hd & _ & Ht);
      try lia. eauto.
  - unfold total_count.
    rewrite (for_loop_pure _
      (fun total offset =>
         total + Z.of_nat (length (residue_class text key_length offset)))).
    + rewrite foldl_add_sum_Z. unfold residue_class.
      rewrite residue_classes_partition by lia.
      f_equal. fold (len (range (len text))). rewrite length_range; unfold len; lia.
    + intros total offset Hoff. apply elem_of_range in Hoff.
      destruct (dict_total_at_offset text key_length offset) as (d & -> & Ht & _);
        try lia.
      rewrite bind_Ok. by rewrite Ht.
Qed.

Lemma frequencies_total_witness :
  1 <= 3 /\ total_count text_abc 3 = Ok 8.
Proof.
  split; [lia |]. apply (frequencies_total text_abc 3). lia.
Defined.

(** C9.  The coincidence counter returns for every text and every key length
    of at least one.  When the loop runs, every offset it visits is below
    the key length, itself below the length of the text, so the frequency
    table of the offset is not empty and its maximum exists. *)
Theorem count_equals_total (text : list byte) (key_length : Z) :
  1 <= key_length ->
  (exists n, count_equals text key_length = Ok n) /\
  (key_length < len text ->
   forall offset, offset ∈ range key_length ->
     offset < key_length < len text /\
     exists d m, chars_count_at_offset text key_length offset = Ok d
       /\ dict_values d <> []
       /\ py_max (dict_values d) = Ok m).
Proof.
  intros HL. split.
  - exists (spec_count_equals text key_length). by apply count_equals_refines.
  - intros Hlt offset Hoff. apply elem_of_range in Hoff. split; [lia |].
    destruct (histogram_max_computed text key_length offset)
      as (d & Hd & Hne & Hmax & _); try lia.
    eauto.
Qed.

Lemma count_equals_total_witness :
  1 <= 3 /\ exists n, count_equals text_abc 3 = Ok n.
Proof.
  split; [lia |]. apply (count_equals_total text_abc 3). lia.
Defined.

(** ** The fitness sweep *)

Lemma Rltb_true (x y : R) : Rltb x y = true <-> (x < y)%R.
Proof. unfold Rltb. destruct (Rlt_dec x y); split; (done || discriminate). Qed.

Lemma Rltb_false (x y : R) : Rltb x y = false <-> (y <= x)%R.
Proof.
  unfold Rltb. destruct (Rlt_dec x y); split; try done; try discriminate; lra.
Qed.

Lemma normalize_Ok (n key_length : Z) :
  0 <= key_length ->
  normalize n key_length = Ok (IZR n / (64 + sqrt (IZR key_length)))%R.
Proof.
  intros H. unfold normalize, pow_half.
  destruct (Z.ltb_spec key_length 0); [lia | reflexivity].
Qed.

Lemma fitness_at_eq (text : list byte) (key_length : Z) :
  1 <= key_length ->
  fitness_at text key_length
  = (IZR (spec_count_equals text key_length) / (64 + sqrt (IZR key_length)))%R.
Proof.
  intros H. unfold fitness_at. destruct (Z.ltb_spec key_length 1); [lia |].
  rewrite count_equals_refines, bind_Ok, normalize_Ok by lia. reflexivity.
Qed.

Lemma fitness_at_low (text : list byte) (key_length : Z) :
  key_length < 1 -> fitness_at text key_length = 0%R.
Proof.
  intros H. unfold fitness_at. destruct (Z.ltb_spec key_length 1); [done | lia].
Qed.

Lemma denominator_pos (key_length : Z) : (0 < 64 + sqrt (IZR key_length))%R.
Proof. pose proof (sqrt_pos (IZR key_length)). lra. Qed.

Lemma fitness_at_nonneg (text : list byte) (key_length : Z) :
  (0 <= fitness_at text key_length)%R.
Proof.
  destruct (Z.lt_ge_cases key_length 1) as [Hlt | Hge].
  - rewrite fitness_at_low by done. lra.
  - rewrite fitness_at_eq by lia. apply Rmult_le_pos.
    + apply IZR_le. apply count_equals_nonneg. lia.
    + left. apply Rinv_0_lt_compat, denominator_pos.
Qed.

(** One iteration of the sweep, for a candidate length of at least one. *)
Lemma fitness_step_Ok (text : list byte) (st : sweep) (key_length : Z) :
  1 <= key_length ->
  fitness_step text st key_length
  = Ok {| pprev := prev st;
          prev := fitness_at text key_length;
          fitnesses :=
            if Rltb (pprev st) (prev st) && Rltb (fitness_at text key_length) (prev st)
            then fitnesses st ++ [(key_length - 1, prev st)]
            else fitnesses st |}.
Proof.
  intros H. unfold fitness_step.
  rewrite count_equals_refines, bind_Ok, normalize_Ok, bind_Ok by lia.
  by rewrite fitness_at_eq by lia.
Qed.

Lemma local_maxima_snoc (text : list byte) (n : Z) :
  1 <= n ->
  local_maxima text (n + 1)
  = local_maxima text n
    ++ (if decide (is_peak text n) then [(n, fitness_at text n)] else []).
Proof.
  intros H. unfold local_maxima. rewrite range2_snoc, filter_app, fmap_app by done.
  f_equal. rewrite filter_cons, filter_nil. by destruct (decide (is_peak text n)).
Qed.

Lemma local_maxima_low (text : list byte) (n : Z) :
  n <= 1 -> local_maxima text n = [].
Proof. intros H. unfold local_maxima. by rewrite range2_empty. Qed.

(** The loop invariant of [calculate_fitnesses]. *)
Lemma sweep_after_spec (text : list byte) (n : nat) :
  sweep_after text (Z.of_nat n)
  = Ok {| pprev := fitness_at text (Z.of_nat n - 1);
          prev := fitness_at text (Z.of_nat n);
          fitnesses := local_maxima text (Z.of_nat n) |}.
Proof.
  unfold sweep_after. induction n as [| n IH].
  - rewrite range2_empty by lia. cbn [for_loop].
    rewrite !fitness_at_low, local_maxima_low by lia. reflexivity.
  - rewrite Nat2Z.inj_succ. unfold Z.succ.
    rewrite range2_snoc, for_loop_app, IH, bind_Ok by lia.
    cbn [for_loop]. rewrite fitness_step_Ok by lia. cbn [pprev prev fitnesses].
    rewrite bind_Ok. cbn [for_loop]. f_equal.
    replace (Z.of_nat n + 1 - 1) with (Z.of_nat n) by lia. f_equal.
    destruct n as [| n].
    + rewrite !fitness_at_low, !local_maxima_low by lia.
      assert (Rltb 0 0 = false) as -> by (apply Rltb_false; lra). reflexivity.
    + rewrite local_maxima_snoc by lia.
      destruct (decide (is_peak text (Z.of_nat (S n)))) as [[H1 H2] | Hn].
      * apply Rltb_true in H1, H2. by rewrite H1, H2.
      * rewrite app_nil_r.
        destruct (Rltb _ _) eqn:H1; [| done].
        destruct (Rltb (fitness_at text (Z.of_nat (S n) + 1)) _) eqn:H2; [| done].
        apply Rltb_true in H1, H2. by destruct Hn.
Qed.

Lemma calculate_fitnesses_spec (P : PARAMETERS) (text : list byte) :
  calculate_fitnesses P text = Ok (local_maxima text (max_key_length P)).
Proof.
  unfold calculate_fitnesses. fold (sweep_after text (max_key_length P)).
  destruct (Z.lt_ge_cases (max_key_length P) 0) as [Hneg | Hpos].
  - unfold sweep_after. rewrite range2_empty by lia. simpl.
    by rewrite local_maxima_low by lia.
  - rewrite <- (Z2Nat.id (max_key_length P)) by lia.
    by rewrite sweep_after_spec.
Qed.

Lemma elem_of_local_maxima (text : list byte) (bound key_length : Z) (f : R) :
  (key_length, f) ∈ local_maxima text bound <->
  (1 <= key_length < bound /\ f = fitness_at text key_length
   /\ is_peak text key_length).
Proof.
  unfold local_maxima. rewrite list_elem_of_fmap. split.
  - intros (L & [= -> ->] & HL). apply list_elem_of_filter in HL as [Hp HL].
    apply elem_of_range2 in HL. done.
  - intros (HL & -> & Hp). exists key_length. split; [done |].
    apply list_elem_of_filter. split; [done |]. by apply elem_of_range2.
Qed.

Lemma fitness_at_count (text : list byte) (key_length n : Z) :
  1 <= key_length -> count_equals text key_length = Ok n ->
  fitness_at text key_length = (IZR n / (64 + sqrt (IZR key_length)))%R.
Proof.
  intros H Hn. rewrite fitness_at_eq by done.
  rewrite count_equals_refines in Hn by done. by injection Hn as ->.
Qed.

(** Every entry of the table has a positive fitness, and the entries are in
    strictly ascending order of key length. *)
Lemma local_maxima_positive (text : list byte) (bound : Z) :
  Forall (fun entry => (0 < snd entry)%R) (local_maxima text bound).
Proof.
  apply Forall_forall. intros [L f] Hin.
  apply elem_of_local_maxima in Hin as (_ & -> & Hlow & _). simpl.
  pose proof (fitness_at_nonneg text (L - 1)). lra.
Qed.

Lemma local_maxima_sorted (text : list byte) (bound : Z) :
  StronglySorted (fun a b => fst a < fst b) (local_maxima text bound).
Proof.
  destruct (Z.le_gt_cases bound 1) as [Hle | Hgt].
  { rewrite local_maxima_low by done. constructor. }
  replace bound with (1 + Z.of_nat (Z.to_nat (bound - 1))) by lia.
  induction (Z.to_nat (bound - 1)) as [| n IH].
  - rewrite local_maxima_low by lia. constructor.
  - replace (1 + Z.of_nat (S n)) with ((1 + Z.of_nat n) + 1) by lia.
    rewrite local_maxima_snoc by lia. apply StronglySorted_app_2; [| done |].
    + intros [L1 f1] [L2 f2] H1 H2. simpl.
      apply elem_of_local_maxima in H1 as (H1 & _).
      destruct (decide (is_peak text (1 + Z.of_nat n))).
      * apply list_elem_of_singleton in H2 as [= -> ->]. lia.
      * by apply elem_of_nil in H2.
    + destruct (decide (is_peak text (1 + Z.of_nat n))); repeat constructor.
Qed.

(** C2 (amended).  The sweep returns a table, and a pair [(L, f)] is in it
    exactly when [L + 1] is still a candidate length, [f] is the fitness at
    [L], and [f] is strictly above the fitness at [L - 1] and at [L + 1], the
    fitness below the first candidate being the initial value 0.  The last
    candidate length is never reported.  The first one is reported exactly
    when there are at least two candidates and its fitness is positive and
    strictly above the fitness at 2. *)
Theorem calculate_fitnesses_local_maxima (P : PARAMETERS) (text : list byte) :
  exists table, calculate_fitnesses P text = Ok table /\
    (forall L f, (L, f) ∈ table <->
       (1 <= L < max_key_length P /\ f = fitness_at text L
        /\ (fitness_at text (L - 1) < f)%R /\ (fitness_at text (L + 1) < f)%R)) /\
    (forall f, (max_key_length P, f) ∉ table) /\
    (forall f, (1, f) ∈ table <->
       (2 <= max_key_length P /\ f = fitness_at text 1
        /\ (0 < f)%R /\ (fitness_at text 2 < f)%R)).
Proof.
  exists (local_maxima text (max_key_length P)).
  split; [apply calculate_fitnesses_spec |].
  assert (forall L f, (L, f) ∈ local_maxima text (max_key_length P) <->
       (1 <= L < max_key_length P /\ f = fitness_at text L
        /\ (fitness_at text (L - 1) < f)%R /\ (fitness_at text (L + 1) < f)%R))
    as Hiff.
  { intros L f. rewrite elem_of_local_maxima. unfold is_peak.
    split; intros (HL & -> & Hp); done. }
  split; [done |]. split.
  - intros f Hin. apply Hiff in Hin. lia.
  - intros f. rewrite Hiff. replace (1 - 1) with 0 by lia.
    rewrite (fitness_at_low text 0) by lia. replace (1 + 1) with 2 by lia.
    split; intros (H1 & H2 & H3 & H4); repeat split; (done || lia).
Qed.

Lemma count_equals_aa_1 : count_equals text_aa 1 = Ok 1.
Proof. vm_compute. reflexivity. Qed.

Lemma count_equals_aa_2 : count_equals text_aa 2 = Ok 0.
Proof. vm_compute. reflexivity. Qed.

(** The first candidate length is reported for the text ["aa"] swept up to
    key length 2: its fitness 1/65 is above the initial 0 and above the
    fitness 0 at key length 2. *)
Lemma first_length_reported :
  calculate_fitnesses params_aa text_aa = Ok [(1, (1 / (64 + sqrt 1))%R)].
Proof.
  rewrite calculate_fitnesses_spec. f_equal. unfold local_maxima.
  change (range2 1 (max_key_length params_aa)) with [1].
  assert (fitness_at text_aa 1 = (1 / (64 + sqrt 1))%R) as H1
    by (by rewrite (fitness_at_count _ _ 1) by (lia || apply count_equals_aa_1)).
  assert (fitness_at text_aa 2 = 0%R) as H2.
  { rewrite (fitness_at_count _ _ 0) by (lia || apply count_equals_aa_2).
    unfold Rdiv. apply Rmult_0_l. }
  rewrite filter_cons_True.
  - simpl. by rewrite H1.
  - unfold is_peak. replace (1 - 1) with 0 by lia. replace (1 + 1) with 2 by lia.
    rewrite (fitness_at_low _ 0), H1, H2 by lia.
    pose proof (denominator_pos 1). split; apply Rdiv_lt_0_compat; lra.
Qed.

(** The candidate lengths split at any length in between. *)
Lemma range2_app (start mid stop : Z) :
  start <= mid <= stop -> range2 start stop = range2 start mid ++ range2 mid stop.
Proof.
  intros H. unfold range2.
  replace (stop - start) with ((mid - start) + (stop - mid)) by lia.
  rewrite seqZ_app by lia. do 2 f_equal. lia.
Qed.

(** The state of the sweep of [calculate_fitnesses] once the candidate
    lengths [1 .. k] are done. *)
Lemma sweep_state (text : list byte) (k : Z) :
  0 <= k ->
  for_loop (fitness_step text) sweep_init (range2 1 (k + 1))
  = Ok {| pprev := fitness_at text (k - 1);
          prev := fitness_at text k;
          fitnesses := local_maxima text k |}.
Proof.
  intros H. rewrite <- (Z2Nat.id k) by lia. apply sweep_after_spec.
Qed.

(** C6.  The run of [calculate_fitnesses] passes through an iteration for
    every candidate length [L] from 1 to [max_key_length]: the iterations for
    [1 .. L - 1] end in a state [st0], the iteration for [L] turns it into
    [st1], whose [prev] is the fitness of this iteration, namely
    [count_equals text L] divided by [64 + sqrt L], and the iterations for
    [L + 1 .. max_key_length] end in the state [st2] whose table
    [calculate_fitnesses] returns.  This is the value the estimator goes on
    with: [L] is in the returned table exactly when it is not the last
    candidate and this value is strictly above the value held before (0 for
    the first candidate, the same quotient for [L - 1] otherwise) and above
    the same quotient for [L + 1]; the entry then carries this value. *)
Theorem normalized_fitness (P : PARAMETERS) (text : list byte) (L : Z) :
  1 <= L <= max_key_length P ->
  exists n st0 st1 st2,
    count_equals text L = Ok n /\
    for_loop (fitness_step text) sweep_init (range2 1 L) = Ok st0 /\
    fitness_step text st0 L = Ok st1 /\
    prev st1 = (IZR n / (64 + sqrt (IZR L)))%R /\
    for_loop (fitness_step text) st1 (range2 (L + 1) (max_key_length P + 1))
    = Ok st2 /\
    calculate_fitnesses P text = Ok (fitnesses st2) /\
    (L = 1 -> prev st0 = 0%R) /\
    (1 < L -> exists k, count_equals text (L - 1) = Ok k /\
                prev st0 = (IZR k / (64 + sqrt (IZR (L - 1))))%R) /\
    (forall f, (L, f) ∈ fitnesses st2 <->
       (L < max_key_length P /\ f = (IZR n / (64 + sqrt (IZR L)))%R /\
        (prev st0 < f)%R /\
        exists m, count_equals text (L + 1) = Ok m /\
                  (IZR m / (64 + sqrt (IZR (L + 1))) < f)%R)).
Proof.
  intros HL.
  pose proof (sweep_state text (L - 1) ltac:(lia)) as H0.
  replace (L - 1 + 1) with L in H0 by lia.
  pose proof (sweep_state text L ltac:(lia)) as H1.
  pose proof (sweep_state text (max_key_length P) ltac:(lia)) as H2.
  rewrite (range2_app 1 (L + 1) (max_key_length P + 1)), for_loop_app, H1, bind_Ok
    in H2 by lia.
  rewrite range2_snoc, for_loop_app, H0, bind_Ok in H1 by lia.
  apply bind_Ok_inv in H1 as (st1 & Hstep & [= ->]).
  eexists _, _, _, _.
  split; [by apply count_equals_refines; lia |].
  split; [exact H0 |]. split; [exact Hstep |].
  split; [cbn [prev]; apply fitness_at_eq; lia |].
  split; [exact H2 |].
  split; [cbn [fitnesses]; apply calculate_fitnesses_spec |].
  cbn [prev fitnesses]. split; [| split].
  - intros ->. apply fitness_at_low. lia.
  - intros HL1. eexists. split; [by apply count_equals_refines; lia |].
    apply fitness_at_eq. lia.
  - intros f. rewrite elem_of_local_maxima. unfold is_peak.
    rewrite <- (fitness_at_eq text L) by lia. split.
    + intros (Hb & -> & Hlow & Hhigh). split_all; try (done || lia).
      eexists. split; [by apply count_equals_refines; lia |].
      by rewrite <- fitness_at_eq by lia.
    + intros (Hb & -> & Hlow & m & Hm & Hhigh). split_all; try (done || lia).
      by rewrite (fitness_at_count _ _ m) by (lia || done).
Qed.

Lemma normalized_fitness_witness :
  1 <= 1 <= max_key_length params_aa /\
  exists n st0 st1 st2,
    count_equals text_aa 1 = Ok n /\
    for_loop (fitness_step text_aa) sweep_init (range2 1 1) = Ok st0 /\
    fitness_step text_aa st0 1 = Ok st1 /\
    prev st1 = (IZR n / (64 + sqrt (IZR 1)))%R /\
    for_loop (fitness_step text_aa) st1 (range2 (1 + 1) (max_key_length params_aa + 1))
    = Ok st2 /\
    calculate_fitnesses params_aa text_aa = Ok (fitnesses st2) /\
    (1 = 1 -> prev st0 = 0%R) /\
    (1 < 1 -> exists k, count_equals text_aa (1 - 1) = Ok k /\
                prev st0 = (IZR k / (64 + sqrt (IZR (1 - 1))))%R) /\
    (forall f, (1, f) ∈ fitnesses st2 <->
       (1 < max_key_length params_aa /\ f = (IZR n / (64 + sqrt (IZR 1)))%R /\
        (prev st0 < f)%R /\
        exists m, count_equals text_aa (1 + 1) = Ok m /\
                  (IZR m / (64 + sqrt (IZR (1 + 1))) < f)%R)).
Proof.
  split; [simpl; lia |]. apply (normalized_fitness params_aa text_aa 1). simpl. lia.
Defined.

(** ** Selection of the best length *)

(** The loop of [get_max_fitnessed_key_length] either keeps its initial
    state, when no fitness exceeds the initial maximum, or ends on the first
    entry whose fitness is the largest of the table. *)
Lemma max_fitness_loop (table : list (Z * R)) (m0 : R) (k0 : Z) :
  (foldl max_fitness_step (m0, k0) table = (m0, k0)
   /\ forall e, e ∈ table -> (snd e <= m0)%R)
  \/ (exists l1 e l2,
        table = l1 ++ e :: l2
        /\ foldl max_fitness_step (m0, k0) table = (snd e, fst e)
        /\ (m0 < snd e)%R
        /\ (forall e', e' ∈ l1 -> (snd e' < snd e)%R)
        /\ (forall e', e' ∈ l2 -> (snd e' <= snd e)%R)).
Proof.
  revert m0 k0. induction table as [| e0 table IH]; intros m0 k0.
  - left. split; [reflexivity |]. intros e He. by apply elem_of_nil in He.
  - cbn [foldl].
    assert (max_fitness_step (m0, k0) e0
            = if Rltb m0 (snd e0) then (snd e0, fst e0) else (m0, k0)) as ->
      by reflexivity.
    destruct (Rltb m0 (snd e0)) eqn:Hlt.
    + apply Rltb_true in Hlt. right.
      destruct (IH (snd e0) (fst e0))
        as [[Heq Hle] | (l1 & e & l2 & -> & Heq & Hm & H1 & H2)].
      * exists [], e0, table. split_all; try done.
        intros e' He'. by apply elem_of_nil in He'.
      * exists (e0 :: l1), e, l2. split_all; try done; [lra |].
        intros e' He'. apply elem_of_cons in He' as [-> | He']; [done | by apply H1].
    + apply Rltb_false in Hlt.
      destruct (IH m0 k0) as [[Heq Hle] | (l1 & e & l2 & -> & Heq & Hm & H1 & H2)].
      * left. split; [done |].
        intros e' He'. apply elem_of_cons in He' as [-> | He']; [done | by apply Hle].
      * right. exists (e0 :: l1), e, l2. split_all; try done.
        intros e' He'. apply elem_of_cons in He' as [-> | He']; [lra | by apply H1].
Qed.

Lemma get_max_first_maximum (table : list (Z * R)) :
  (exists e, e ∈ table /\ (0 < snd e)%R) ->
  exists l1 e l2,
    table = l1 ++ e :: l2
    /\ get_max_fitnessed_key_length table = fst e
    /\ (0 < snd e)%R
    /\ (forall e', e' ∈ l1 -> (snd e' < snd e)%R)
    /\ (forall e', e' ∈ l2 -> (snd e' <= snd e)%R).
Proof.
  intros (e1 & Hin & Hpos). unfold get_max_fitnessed_key_length.
  destruct (max_fitness_loop table 0%R 0)
    as [[_ Hle] | (l1 & e & l2 & Htab & Heq & Hm & H1 & H2)].
  - specialize (Hle e1 Hin). lra.
  - exists l1, e, l2. rewrite Heq. done.
Qed.

Lemma get_max_nonpositive (table : list (Z * R)) :
  (forall e, e ∈ table -> (snd e <= 0)%R) ->
  get_max_fitnessed_key_length table = 0.
Proof.
  intros Hle. unfold get_max_fitnessed_key_length.
  destruct (max_fitness_loop table 0%R 0)
    as [[-> _] | (l1 & e & l2 & -> & Heq & Hm & H1 & H2)]; [done |].
  specialize (Hle e). rewrite elem_of_app, elem_of_cons in Hle.
  specialize (Hle ltac:(tauto)). lra.
Qed.

(** C5.  On a fitness table, whose entries all have a positive fitness,
    [get_max_fitnessed_key_length] returns a key length of the table whose
    fitness is the highest of the table; on the empty table it returns 0. *)
Theorem get_max_fitnessed_key_length_spec (table : list (Z * R)) :
  Forall (fun entry => (0 < snd entry)%R) table ->
  (table = [] -> get_max_fitnessed_key_length table = 0) /\
  (table <> [] ->
   exists f, (get_max_fitnessed_key_length table, f) ∈ table
     /\ forall entry, entry ∈ table -> (snd entry <= f)%R).
Proof.
  intros Hpos. split.
  - intros ->. reflexivity.
  - intros Hne. destruct table as [| e0 table]; [done |].
    destruct (get_max_first_maximum (e0 :: table))
      as (l1 & e & l2 & Htab & Heq & Hm & H1 & H2).
    { exists e0. split; [left |]. by apply Forall_cons_1 in Hpos as [H _]. }
    exists (snd e). rewrite Heq, Htab. split.
    + rewrite elem_of_app, elem_of_cons. right. left. by destruct e.
    + intros e'. rewrite elem_of_app, elem_of_cons.
      intros [He' | [-> | He']]; [left; by apply H1 | lra | by apply H2].
Qed.

Lemma get_max_fitnessed_key_length_spec_witness :
  Forall (fun entry => (0 < snd entry)%R) table_example /\
  exists f, (get_max_fitnessed_key_length table_example, f) ∈ table_example
    /\ forall entry, entry ∈ table_example -> (snd entry <= f)%R.
Proof.
  assert (Forall (fun entry => (0 < snd entry)%R) table_example) as Hpos
    by (repeat constructor; simpl; lra).
  split; [done |].
  by apply (get_max_fitnessed_key_length_spec table_example Hpos).
Defined.

(** C10.  On a table in ascending order of key length with some positive
    fitness, the result is the smallest key length among the entries that
    share the maximal fitness; and the result is 0 whenever every fitness
    of the table is at most 0. *)
Theorem get_max_tie_break (table : list (Z * R)) :
  (StronglySorted (fun a b => fst a < fst b) table ->
   (exists entry, entry ∈ table /\ (0 < snd entry)%R) ->
   exists m, (get_max_fitnessed_key_length table, m) ∈ table
     /\ (forall entry, entry ∈ table -> (snd entry <= m)%R)
     /\ (forall L, (L, m) ∈ table -> get_max_fitnessed_key_length table <= L)) /\
  ((forall entry, entry ∈ table -> (snd entry <= 0)%R) ->
   get_max_fitnessed_key_length table = 0).
Proof.
  split; [| apply get_max_nonpositive].
  intros Hsorted Hex.
  destruct (get_max_first_maximum table Hex)
    as (l1 & e & l2 & Htab & Heq & Hm & H1 & H2).
  exists (snd e). rewrite Heq. subst table. split; [| split].
  - rewrite elem_of_app, elem_of_cons. right. left. by destruct e.
  - intros e'. rewrite elem_of_app, elem_of_cons.
    intros [He' | [-> | He']]; [left; by apply H1 | lra | by apply H2].
  - intros L. rewrite elem_of_app, elem_of_cons. intros [HL | [HL | HL]].
    + specialize (H1 _ HL). simpl in H1. lra.
    + destruct e as [Le fe]. simpl in *. injection HL as ->. lia.
    + apply StronglySorted_app_1_r, StronglySorted_cons in Hsorted as [Hall _].
      rewrite Forall_forall in Hall. specialize (Hall _ HL). simpl in Hall. lia.
Qed.

Lemma get_max_tie_break_witness :
  StronglySorted (fun a b => fst a < fst b) table_example /\
  (exists entry, entry ∈ table_example /\ (0 < snd entry)%R) /\
  exists m, (get_max_fitnessed_key_length table_example, m) ∈ table_example
     /\ (forall entry, entry ∈ table_example -> (snd entry <= m)%R)
     /\ (forall L, (L, m) ∈ table_example
         -> get_max_fitnessed_key_length table_example <= L).
Proof.
  assert (StronglySorted (fun a b => fst a < fst b) table_example) as Hs
    by (repeat constructor; simpl; lia).
  assert (exists entry, entry ∈ table_example /\ (0 < snd entry)%R) as Hex
    by (exists (3, 2%R); split; [left | simpl; lra]).
  split; [done |]. split; [done |].
  by apply (get_max_tie_break table_example).
Defined.

Lemma get_max_example : get_max_fitnessed_key_length table_example = 6.
Proof.
  unfold get_max_fitnessed_key_length, table_example. cbn [foldl].
  unfold max_fitness_step. cbn [fst snd].
  assert (Rltb 0 2 = true) as -> by (apply Rltb_true; lra). cbn [fst snd].
  assert (Rltb 2 5 = true) as -> by (apply Rltb_true; lra). cbn [fst snd].
  assert (Rltb 5 5 = false) as -> by (apply Rltb_false; lra). reflexivity.
Qed.

(** ** Expansion of the candidate bytes into keys *)

Lemma all_keys_done (kpb : list (list byte)) (key_part : list byte) (offset : nat) :
  (length kpb <= offset)%nat -> all_keys kpb key_part offset = [key_part].
Proof.
  intros H. rewrite all_keys_equation_1.
  destruct (le_lt_dec (length kpb) offset); [reflexivity | lia].
Qed.

Lemma all_keys_step (kpb : list (list byte)) (key_part : list byte) (offset : nat) :
  (offset < length kpb)%nat ->
  all_keys kpb key_part offset
  = foldl (fun keys c => keys ++ all_keys kpb (key_part ++ [c]) (S offset))
          [] (nth offset kpb []).
Proof.
  intros H. rewrite all_keys_equation_1.
  destruct (le_lt_dec (length kpb) offset); [lia | reflexivity].
Qed.

(** ** A ciphertext too short for any key length *)

Lemma fitness_at_short (text : list byte) (key_length : Z) :
  len text <= 1 -> fitness_at text key_length = 0%R.
Proof.
  intros Hlen. destruct (Z.lt_ge_cases key_length 1) as [Hlt | Hge].
  - by apply fitness_at_low.
  - rewrite fitness_at_eq by lia. unfold spec_count_equals.
    destruct (Z.leb_spec (len text) key_length); [| lia].
    unfold Rdiv. apply Rmult_0_l.
Qed.

Lemma local_maxima_short (text : list byte) (bound : Z) :
  len text <= 1 -> local_maxima text bound = [].
Proof.
  intros Hlen. apply elem_of_nil_inv. intros [L f] Hin.
  apply elem_of_local_maxima in Hin as (_ & _ & Hp & _).
  rewrite !fitness_at_short in Hp by done. lra.
Qed.

Lemma guess_and_print_divizors_nil (P : PARAMETERS) :
  0 <= max_key_length P -> exists d, guess_and_print_divizors P [] = Ok d.
Proof.
  intros H. unfold guess_and_print_divizors, range, range2.
  rewrite seqZ_cons by lia. cbn [for_loop]. rewrite bind_Ok. csimpl.
  eexists. reflexivity.
Qed.

Lemma guess_key_length_short (P : PARAMETERS) (text : list byte) :
  len text <= 1 -> 0 <= max_key_length P ->
  calculate_fitnesses P text = Ok [] /\ guess_key_length P text = Ok 0.
Proof.
  intros Hlen Hmax.
  assert (calculate_fitnesses P text = Ok []) as Hcalc
    by (by rewrite calculate_fitnesses_spec, local_maxima_short).
  split; [done |]. unfold guess_key_length. rewrite Hcalc, bind_Ok.
  destruct (guess_and_print_divizors_nil P Hmax) as [d ->]. reflexivity.
Qed.

Lemma guess_keys_zero_length (P : PARAMETERS) (text : list byte) :
  known_key_length P = Some 0 -> guess_keys P text = Ok [[]].
Proof.
  intros H. unfold guess_keys. rewrite H. cbn [as_int]. rewrite bind_Ok.
  change (range 0) with (@nil Z). cbn [for_loop fmap list_fmap].
  rewrite bind_Ok. by rewrite all_keys_done by (simpl; lia).
Qed.

(** When the estimator finds no key length, [main] goes on with the key
    length 0 and the guesser returns the empty key. *)
Lemma main_zero_length (P : PARAMETERS) (text : list byte) :
  truthy (known_key_length P) = false ->
  guess_key_length P text = Ok 0 ->
  most_frequent_char P <> None ->
  main P text = Ok [[]].
Proof.
  intros Hk Hg Hc. unfold main, update_key_length. rewrite Hk, Hg, bind_Ok, bind_Ok.
  unfold guess_probable_keys. cbn [set_known_key_length most_frequent_char].
  destruct (most_frequent_char P) as [c |] eqn:Hmc; [| done].
  by apply guess_keys_zero_length.
Qed.

(** C1 (amended).  For a ciphertext of length 1 swept up to a key length of
    at least 2, the estimator produces an empty table and the best length 0.
    Whenever the estimator returns the best length 0 and the most frequent
    character is supplied, key guessing goes on with the key length 0 and
    returns exactly one key, the empty one; nothing is reported as a
    failure. *)
Theorem zero_best_length :
  (forall P text, len text = 1 -> 2 <= max_key_length P ->
     calculate_fitnesses P text = Ok [] /\ guess_key_length P text = Ok 0) /\
  (forall P text,
     truthy (known_key_length P) = false ->
     guess_key_length P text = Ok 0 ->
     most_frequent_char P <> None ->
     main P text = Ok [[]]).
Proof.
  split.
  - intros P text Hlen Hmax. apply guess_key_length_short; lia.
  - apply main_zero_length.
Qed.

Lemma zero_best_length_witness :
  (len text_a = 1 /\ 2 <= max_key_length params_aa) /\
  (calculate_fitnesses params_aa text_a = Ok []
   /\ guess_key_length params_aa text_a = Ok 0) /\
  main params_aa text_a = Ok [[]].
Proof.
  assert (len text_a = 1 /\ 2 <= max_key_length params_aa) as Hhyp
    by (split; [reflexivity | simpl; lia]).
  destruct Hhyp as [Hlen Hmax].
  pose proof (proj1 zero_best_length params_aa text_a Hlen Hmax) as Hest.
  split; [done |]. split; [done |].
  apply (proj2 zero_best_length params_aa text_a);
    [reflexivity | apply Hest | discriminate].
Defined.

(** For the one-byte text ["a"], with the most frequent character given and
    no key length, the run does not fail: it returns the key of length 0. *)
Lemma zero_length_key_returned :
  guess_key_length params_aa text_a = Ok 0 /\ main params_aa text_a = Ok [[]].
Proof.
  pose proof (guess_key_length_short params_aa text_a) as [_ Hg];
    [by compute | by compute |].
  split; [done |]. apply main_zero_length; [reflexivity | done | discriminate].
Qed.

(** ** The missing most frequent character *)

Lemma no_exit_Ok {A : Type} (a : A) : no_exit (Ok a).
Proof. intros msg. discriminate. Qed.

Lemma no_exit_bind {A B : Type} (m : result A) (f : A -> result B) :
  no_exit m -> (forall a, no_exit (f a)) -> no_exit (m ≫= f).
Proof.
  intros Hm Hf. destruct m as [a | e]; [apply Hf |].
  intros msg Heq. apply (Hm msg). cbn in Heq. by injection Heq as ->.
Qed.

Lemma no_exit_for_loop {S A : Type} (body : S -> A -> result S) (s : S) (l : list A) :
  (forall s' x, no_exit (body s' x)) -> no_exit (for_loop body s l).
Proof.
  intros Hb. revert s. induction l as [| x l IH]; intros s; [apply no_exit_Ok |].
  cbn [for_loop]. apply no_exit_bind; [apply Hb | apply IH].
Qed.

Lemma no_exit_py_index {A : Type} (l : list A) (i : Z) : no_exit (py_index l i).
Proof. unfold py_index. intros msg. by destruct (_ || _). Qed.

Lemma no_exit_getitem {A : Type} (l : list A) (i : Z) : no_exit (getitem l i).
Proof.
  unfold getitem. apply no_exit_bind; [apply no_exit_py_index |].
  intros j msg. by destruct (l !! j).
Qed.

Lemma no_exit_setitem {A : Type} (l : list A) (i : Z) (x : A) :
  no_exit (setitem l i x).
Proof.
  unfold setitem. apply no_exit_bind; [apply no_exit_py_index |].
  intros j. apply no_exit_Ok.
Qed.

Lemma no_exit_chars_count_at_offset (text : list byte) (key_length offset : Z) :
  no_exit (chars_count_at_offset text key_length offset).
Proof.
  unfold chars_count_at_offset. apply no_exit_bind.
  - unfold range3. intros msg. by destruct (key_length =? 0).
  - intros ps. apply no_exit_for_loop. intros d p. unfold count_char.
    apply no_exit_bind; [apply no_exit_getitem |].
    intros c msg. by destruct (d !! c).
Qed.

Lemma no_exit_py_max (l : list Z) : no_exit (py_max l).
Proof. intros msg. by destruct l. Qed.

Lemma no_exit_guess_keys (P : PARAMETERS) (text : list byte) :
  no_exit (guess_keys P text).
Proof.
  unfold guess_keys. apply no_exit_bind.
  { intros msg. by destruct (known_key_length P). }
  intros key_length. apply no_exit_bind; [| intros; apply no_exit_Ok].
  apply no_exit_for_loop. intros kpb offset. unfold guess_keys_body.
  apply no_exit_bind; [apply no_exit_chars_count_at_offset |].
  intros d. apply no_exit_bind; [apply no_exit_py_max |].
  intros m. apply no_exit_for_loop. intros kpb' c. unfold possible_byte.
  apply no_exit_bind.
  { unfold dict_get. intros msg. by destruct (d !! c). }
  intros n. destruct (m <=? n); [| apply no_exit_Ok].
  apply no_exit_bind.
  { intros msg. by destruct (most_frequent_char P). }
  intros mc. apply no_exit_bind.
  { unfold chr. intros msg. destruct (_ || _); [done |]. by destruct (Byte.of_N _). }
  intros c'. apply no_exit_bind; [apply no_exit_getitem |].
  intros bytes. apply no_exit_setitem.
Qed.

(** C8.  Key guessing ends with the fatal error, and so with no keys at
    all, exactly when the most frequent character is not supplied; when it
    is supplied, [guess_probable_keys] returns what [guess_keys] returns,
    which is never that error. *)
Theorem guess_probable_keys_spec (P : PARAMETERS) (text : list byte) :
  ((exists msg, guess_probable_keys P text = Raise (SystemExit msg))
   <-> most_frequent_char P = None) /\
  (forall c, most_frequent_char P = Some c ->
     guess_probable_keys P text = guess_keys P text
     /\ no_exit (guess_probable_keys P text)).
Proof.
  unfold guess_probable_keys. split.
  - destruct (most_frequent_char P) as [c |] eqn:Hc.
    + split; [| discriminate]. intros [msg Hmsg].
      by apply no_exit_guess_keys in Hmsg.
    + split; [done |]. intros _. eexists. reflexivity.
  - intros c ->. split; [done | apply no_exit_guess_keys].
Qed.

Lemma guess_probable_keys_spec_witness :
  most_frequent_char params_aa = Some 32 /\
  guess_probable_keys params_aa text_aa = guess_keys params_aa text_aa.
Proof.
  split; [reflexivity |].
  by apply (proj2 (guess_probable_keys_spec params_aa text_aa) 32).
Defined.

(** ** The bytes of the key *)

Lemma ord_bounds (c : byte) : 0 <= ord c < 256.
Proof. unfold ord. pose proof (Byte.to_N_bounded c). lia. Qed.

Lemma ord_inj (c1 c2 : byte) : ord c1 = ord c2 -> c1 = c2.
Proof.
  unfold ord. intros H. apply N2Z.inj in H.
  apply (f_equal Byte.of_N) in H. rewrite !Byte.of_to_N in H. congruence.
Qed.

Lemma lxor_bounds (a b : Z) :
  0 <= a < 256 -> 0 <= b < 256 -> 0 <= Z.lxor a b < 256.
Proof.
  intros Ha Hb.
  assert (0 <= Z.lxor a b) as Hnn by (apply Z.lxor_nonneg; lia).
  split; [done |].
  destruct (Z.eq_dec (Z.lxor a b) 0) as [-> | Hne]; [lia |].
  change 256 with (2 ^ 8). apply Z.log2_lt_pow2; [lia |].
  pose proof (Z.log2_lxor a b ltac:(lia) ltac:(lia)) as Hlog.
  assert (forall x, 0 <= x < 256 -> Z.log2 x < 8) as Hsmall.
  { intros x Hx. destruct (Z.eq_dec x 0) as [-> | Hx0]; [by compute |].
    apply Z.log2_lt_pow2; [lia |]. change (2 ^ 8) with 256. lia. }
  pose proof (Hsmall a Ha). pose proof (Hsmall b Hb). lia.
Qed.

Lemma chr_xor (most_char : Z) (c : byte) :
  0 <= most_char < 256 ->
  chr (Z.lxor (ord c) most_char) = Ok (xor_byte most_char c)
  /\ ord (xor_byte most_char c) = Z.lxor (ord c) most_char.
Proof.
  intros Hmc. pose proof (lxor_bounds _ _ (ord_bounds c) Hmc) as Hx.
  unfold chr, xor_byte.
  destruct (Z.ltb_spec (Z.lxor (ord c) most_char) 0); [lia |].
  destruct (Z.leb_spec 256 (Z.lxor (ord c) most_char)); [lia |]. cbn [orb].
  destruct (Byte.of_N (Z.to_N (Z.lxor (ord c) most_char))) as [k |] eqn:Hk.
  - split; [done |]. simpl. apply Byte.to_of_N in Hk.
    unfold ord at 1. rewrite Hk. lia.
  - apply Byte.of_N_None_iff in Hk. lia.
Qed.

Lemma xor_byte_inj (most_char : Z) (c1 c2 : byte) :
  0 <= most_char < 256 -> xor_byte most_char c1 = xor_byte most_char c2 -> c1 = c2.
Proof.
  intros Hmc Heq. apply ord_inj.
  pose proof (proj2 (chr_xor most_char c1 Hmc)) as H1.
  pose proof (proj2 (chr_xor most_char c2 Hmc)) as H2.
  rewrite Heq, H2 in H1.
  rewrite <- (Z.lxor_0_r (ord c1)), <- (Z.lxor_0_r (ord c2)).
  rewrite <- (Z.lxor_nilpotent most_char), <- !Z.lxor_assoc. by rewrite H1.
Qed.

Lemma possible_byte_Ok (most_char : Z) (d : gmap byte Z) (max_count offset n : Z)
  (kpb : list (list byte)) (bytes : list byte) (c : byte) :
  0 <= most_char < 256 ->
  d !! c = Some n ->
  0 <= offset < len kpb ->
  kpb !! Z.to_nat offset = Some bytes ->
  possible_byte (Some most_char) d max_count offset kpb c
  = Ok (if max_count <=? n
        then <[Z.to_nat offset := bytes ++ [xor_byte most_char c]]> kpb
        else kpb).
Proof.
  intros Hmc Hn Hoff Hb. unfold possible_byte, dict_get. rewrite Hn, bind_Ok.
  destruct (max_count <=? n); [| reflexivity].
  cbn [as_int]. rewrite bind_Ok.
  rewrite (proj1 (chr_xor most_char c Hmc)), bind_Ok.
  rewrite (getitem_valid _ _ bytes), bind_Ok by done.
  by rewrite setitem_valid by done.
Qed.

(** The inner loop of [guess_keys] appends to the list of one offset the
    bytes obtained from the characters that reach the maximum. *)
Lemma possible_bytes_loop (most_char : Z) (d : gmap byte Z) (max_count offset : Z)
  (keys : list byte) (kpb : list (list byte)) (bytes : list byte) :
  0 <= most_char < 256 ->
  (forall c, c ∈ keys -> is_Some (d !! c)) ->
  0 <= offset < len kpb ->
  kpb !! Z.to_nat offset = Some bytes ->
  for_loop (possible_byte (Some most_char) d max_count offset) kpb keys
  = Ok (<[Z.to_nat offset := bytes ++ key_bytes most_char d max_count keys]> kpb).
Proof.
  intros Hmc Hkeys Hoff. revert kpb bytes Hoff.
  induction keys as [| c keys IH]; intros kpb bytes Hoff Hb.
  - unfold key_bytes. cbn. by rewrite app_nil_r, list_insert_id.
  - cbn [for_loop]. destruct (Hkeys c ltac:(left)) as [n Hn].
    rewrite (possible_byte_Ok _ _ _ _ n _ bytes), bind_Ok by done.
    assert (count_of d c = n) as Hcount by (unfold count_of; by rewrite Hn).
    unfold key_bytes. rewrite filter_cons.
    destruct (Z.leb_spec max_count n) as [Hle | Hgt].
    + rewrite (IH ltac:(intros; apply Hkeys; by right) _
                 (bytes ++ [xor_byte most_char c])).
      * rewrite decide_True by lia. rewrite list_insert_insert_eq.
        f_equal. f_equal. rewrite <- app_assoc. reflexivity.
      * unfold len in *. rewrite length_insert. lia.
      * apply list_lookup_insert_eq. unfold len in Hoff. lia.
    + rewrite decide_False by lia.
      by apply IH; [intros; apply Hkeys; right | |].
Qed.

Lemma guess_keys_body_Ok (text : list byte) (key_length most_char offset : Z)
  (kpb : list (list byte)) :
  0 <= most_char < 256 ->
  0 < key_length -> 0 <= offset < key_length -> offset < len text ->
  offset < len kpb -> kpb !! Z.to_nat offset = Some [] ->
  guess_keys_body text key_length (Some most_char) kpb offset
  = Ok (<[Z.to_nat offset := offset_bytes text key_length most_char offset]> kpb).
Proof.
  intros Hmc HL Hoff Hlen Hkpb Hnil. unfold guess_keys_body.
  rewrite chars_count_at_offset_tally, bind_Ok by done.
  rewrite py_max_tally by (by apply positions_nonempty).
  rewrite max_occurrences_histogram, bind_Ok by done.
  rewrite (possible_bytes_loop _ _ _ _ _ _ []); try done; [| lia].
  intros c Hc. by apply elem_of_dict_keys in Hc.
Qed.

Lemma offset_bytes_NoDup (text : list byte) (key_length most_char offset : Z) :
  0 <= most_char < 256 -> NoDup (offset_bytes text key_length most_char offset).
Proof.
  intros Hmc. unfold offset_bytes, key_bytes. apply NoDup_fmap_2_strong.
  - intros c1 c2 _ _. by apply xor_byte_inj.
  - apply NoDup_filter, NoDup_fst_map_to_list.
Qed.

(** The bytes collected for an offset are the candidate set of the offset:
    every byte whose count equals the maximum is kept. *)
Lemma elem_of_offset_bytes (text : list byte) (key_length most_char offset : Z)
  (k : byte) :
  0 <= most_char < 256 ->
  0 < key_length -> 0 <= offset < key_length -> offset < len text ->
  k ∈ offset_bytes text key_length most_char offset
  <-> is_candidate text key_length most_char offset k.
Proof.
  intros Hmc HL Hoff Hlen. unfold offset_bytes, key_bytes, is_candidate.
  pose proof (max_occurrences_histogram text key_length offset HL Hoff) as Hmax.
  pose proof (max_occurrences_pos _ (positions_nonempty _ _ _ HL Hoff Hlen)) as Hpos.
  rewrite list_elem_of_fmap. split.
  - intros (c & -> & Hc). apply list_elem_of_filter in Hc as [Hge Hc].
    apply elem_of_dict_keys in Hc as [n Hn].
    unfold count_of in Hge. rewrite Hn in Hge. simpl in Hge.
    apply tally_empty_lookup in Hn as [-> _].
    pose proof (max_occurrences_ge
                  (chars_at text (positions offset (len text) key_length)) c) as Hle.
    rewrite occurrences_histogram in Hge, Hle by done.
    exists c. split; [lia |]. apply chr_xor. done.
  - intros (b & Hb & Hk). exists b. split.
    + apply ord_inj. by rewrite (proj2 (chr_xor most_char b Hmc)).
    + assert (tally (chars_at text (positions offset (len text) key_length)) ∅ !! b
              = Some (histogram_max text key_length offset)) as Hlook.
      { apply tally_empty_lookup.
        rewrite occurrences_histogram by done. split; [done | lia]. }
      apply list_elem_of_filter. split.
      * unfold count_of. rewrite Hlook. simpl. lia.
      * apply elem_of_dict_keys. eauto.
Qed.

(** The outer loop of [guess_keys], started on the offsets from [j]. *)
Lemma guess_keys_loop (text : list byte) (key_length most_char : Z) (n : nat) (j : Z) :
  0 <= most_char < 256 ->
  0 <= j -> j + Z.of_nat n = key_length -> key_length <= len text ->
  for_loop (guess_keys_body text key_length (Some most_char))
           ((offset_bytes text key_length most_char <$> range2 0 j)
              ++ ((fun _ : Z => []) <$> range2 j key_length))
           (range2 j key_length)
  = Ok (offset_bytes text key_length most_char <$> range key_length).
Proof.
  intros Hmc. revert j. induction n as [| n IH]; intros j Hj Hn Hlen.
  - rewrite (range2_empty j) by lia. cbn [for_loop fmap list_fmap].
    rewrite app_nil_r. replace j with key_length by lia. reflexivity.
  - assert (length (offset_bytes text key_length most_char <$> range2 0 j)
            = Z.to_nat j) as Hpre.
    { rewrite length_fmap. unfold range2. rewrite length_seqZ. f_equal. lia. }
    unfold range2 at 2 3. rewrite seqZ_cons by lia. fold (range2 (Z.succ j) key_length).
    replace (Z.pred (key_length - j)) with (key_length - Z.succ j) by lia.
    fold (range2 (Z.succ j) key_length). cbn [for_loop fmap list_fmap].
    rewrite guess_keys_body_Ok; try done; try lia.
    + rewrite bind_Ok. rewrite insert_app_r_alt by lia.
      rewrite Hpre, Nat.sub_diag. cbn [insert list_insert].
      rewrite (cons_middle (offset_bytes _ _ _ j)), app_assoc.
      replace (Z.succ j) with (j + 1) by lia.
      rewrite <- (IH (j + 1)) by lia. f_equal. f_equal.
      rewrite range2_snoc by lia. by rewrite fmap_app.
    + unfold len. rewrite length_app, Hpre. cbn [length]. lia.
    + rewrite lookup_app_r by lia. by rewrite Hpre, Nat.sub_diag.
Qed.

(** ** The number and the length of the keys *)

Lemma foldl_app_length {A B : Type} (f : A -> list B) (q : nat) (cs : list A)
  (acc : list B) :
  (forall c, c ∈ cs -> length (f c) = q) ->
  length (foldl (fun keys c => keys ++ f c) acc cs)
  = (length acc + length cs * q)%nat.
Proof.
  revert acc. induction cs as [| c cs IH]; intros acc Hq; cbn [foldl length]; [lia |].
  rewrite IH by (intros; apply Hq; by right).
  rewrite length_app, (Hq c) by left. lia.
Qed.

Lemma elem_of_foldl_app {A B : Type} (f : A -> list B) (cs : list A)
  (acc : list B) (k : B) :
  k ∈ foldl (fun keys c => keys ++ f c) acc cs
  <-> k ∈ acc \/ exists c, c ∈ cs /\ k ∈ f c.
Proof.
  revert acc. induction cs as [| c cs IH]; intros acc; cbn [foldl].
  - split; [by left |]. intros [H | (c & Hc & _)]; [done | by apply elem_of_nil in Hc].
  - rewrite IH, elem_of_app. split.
    + intros [[H | H] | (c' & Hc' & H)]; [by left | right | right].
      * exists c. split; [left | done].
      * exists c'. split; [by right | done].
    + intros [H | (c' & Hc' & H)]; [by left; left |].
      apply elem_of_cons in Hc' as [-> | Hc']; [by left; right |].
      right. eauto.
Qed.

Lemma all_keys_length (kpb : list (list byte)) (n : nat) :
  forall key_part offset, (length kpb - offset)%nat = n ->
    length (all_keys kpb key_part offset) = product (length <$> drop offset kpb).
Proof.
  induction n as [| n IH]; intros key_part offset Hn.
  - rewrite all_keys_done, drop_ge by lia. reflexivity.
  - rewrite all_keys_step by lia.
    destruct (lookup_lt_is_Some_2 kpb offset ltac:(lia)) as [cs Hcs].
    rewrite (nth_lookup_Some _ _ _ _ Hcs), (drop_S _ _ _ Hcs).
    rewrite (foldl_app_length _ (product (length <$> drop (S offset) kpb))).
    + rewrite fmap_cons. unfold product. cbn [foldr length]. lia.
    + intros c _. apply IH. lia.
Qed.

Lemma all_keys_key_length (kpb : list (list byte)) (n : nat) :
  forall key_part offset key, (length kpb - offset)%nat = n ->
    key ∈ all_keys kpb key_part offset ->
    length key = (length key_part + n)%nat.
Proof.
  induction n as [| n IH]; intros key_part offset key Hn Hin.
  - rewrite all_keys_done in Hin by lia. apply list_elem_of_singleton in Hin as ->. lia.
  - rewrite all_keys_step in Hin by lia.
    apply elem_of_foldl_app in Hin as [Hin | (c & _ & Hin)];
      [by apply elem_of_nil in Hin |].
    apply IH in Hin; [| lia]. rewrite length_app in Hin. cbn in Hin. lia.
Qed.

(** On a key length between 0 and the length of the text, with a most
    frequent character that is a byte, [guess_keys] returns the keys built
    from the candidate sets of the offsets: as many keys as the product of
    the sizes of the sets, each of length [key_length]. *)
Lemma guess_keys_correct (P : PARAMETERS) (text : list byte) (key_length most_char : Z) :
  known_key_length P = Some key_length ->
  most_frequent_char P = Some most_char ->
  0 <= most_char < 256 ->
  0 <= key_length <= len text ->
  let sets := offset_bytes text key_length most_char <$> range key_length in
  exists keys, guess_keys P text = Ok keys
    /\ length keys = product (length <$> sets)
    /\ (forall key, key ∈ keys -> len key = key_length)
    /\ (forall offset, 0 <= offset < key_length ->
          exists set, sets !! Z.to_nat offset = Some set
            /\ NoDup set
            /\ forall k, k ∈ set <-> is_candidate text key_length most_char offset k).
Proof.
  intros HL Hmc Hbyte Hlen sets. exists (all_keys sets [] 0).
  assert (length sets = Z.to_nat key_length) as Hsets.
  { unfold sets, range, range2. rewrite length_fmap, length_seqZ. f_equal. lia. }
  split_all.
  - unfold guess_keys. rewrite HL, Hmc. cbn [as_int]. rewrite bind_Ok.
    pose proof (guess_keys_loop text key_length most_char
                  (Z.to_nat key_length) 0 Hbyte) as Hloop.
    rewrite (range2_empty 0 0) in Hloop by lia. cbn [fmap list_fmap app] in Hloop.
    unfold range at 1 2. rewrite Hloop by lia. reflexivity.
  - by rewrite (all_keys_length sets (length sets)), drop_0 by lia.
  - intros key Hin.
    apply (all_keys_key_length sets (length sets)) in Hin; [| lia].
    unfold len. rewrite Hin, Hsets. cbn. lia.
  - intros offset Hoff. exists (offset_bytes text key_length most_char offset).
    split_all.
    + unfold sets. rewrite list_lookup_fmap. unfold range, range2.
      rewrite lookup_seqZ_lt by lia. cbn. f_equal. f_equal. lia.
    + by apply offset_bytes_NoDup.
    + intros k. apply elem_of_offset_bytes; lia.
Qed.

Example guess_keys_abc : guess_keys params_abc text_abc = Ok [text_of "ABC"].
Proof. vm_compute. reflexivity. Qed.

(** C4 (failing input).  With the key length 2 chosen for the one-byte text
    ["a"], the offset 1 has no position in the text, its frequency table is
    empty and [max] raises: [guess_keys] returns no list of keys at all.
    [count_equals] avoids the same [max] by its test on the key length;
    [guess_keys] has no such test.  On key lengths up to the length of the
    text the keys are as claimed, see [guess_keys_correct]. *)
Theorem guess_keys_short_text :
  chars_count_at_offset text_a 2 1 = Ok ∅ /\
  guess_keys params_long text_a
  = Raise (ValueError "max() arg is an empty sequence").
Proof. split; vm_compute; reflexivity. Qed.

(** * Further properties of the analyses *)

(** ** The keys are the Cartesian product of the candidate bytes *)

Lemma all_keys_elem (kpb : list (list byte)) (n : nat) :
  forall key_part offset key, (length kpb - offset)%nat = n ->
    key ∈ all_keys kpb key_part offset <->
    exists suffix, key = key_part ++ suffix
      /\ Forall2 (fun c cs => c ∈ cs) suffix (drop offset kpb).
Proof.
  induction n as [| n IH]; intros key_part offset key Hn.
  - rewrite all_keys_done, drop_ge, list_elem_of_singleton by lia. split.
    + intros ->. exists []. by rewrite app_nil_r.
    + intros (suffix & -> & Hs). apply Forall2_nil_inv_r in Hs as ->.
      by rewrite app_nil_r.
  - rewrite all_keys_step by lia.
    destruct (lookup_lt_is_Some_2 kpb offset ltac:(lia)) as [cs Hcs].
    rewrite (nth_lookup_Some _ _ _ _ Hcs), (drop_S _ _ _ Hcs), elem_of_foldl_app.
    split.
    + intros [Hnil | (c & Hc & Hin)]; [by apply elem_of_nil in Hnil |].
      apply IH in Hin as (suffix & -> & Hs); [| lia].
      exists (c :: suffix). rewrite <- app_assoc. split; [done | by constructor].
    + intros (suffix & -> & Hs). right.
      apply Forall2_cons_inv_r in Hs as (c & suffix' & Hc & Hs & ->).
      exists c. split; [done |]. apply IH; [lia |].
      exists suffix'. by rewrite <- app_assoc.
Qed.

Lemma foldl_app_NoDup {A B : Type} (f : A -> list B) (cs : list A) (acc : list B) :
  NoDup acc -> NoDup cs ->
  (forall c, c ∈ cs -> NoDup (f c)) ->
  (forall c k, c ∈ cs -> k ∈ f c -> k ∉ acc) ->
  (forall c1 c2 k, c1 ∈ cs -> c2 ∈ cs -> k ∈ f c1 -> k ∈ f c2 -> c1 = c2) ->
  NoDup (foldl (fun keys c => keys ++ f c) acc cs).
Proof.
  revert acc. induction cs as [| c cs IH]; intros acc Hacc Hcs Hf Hdisj Hsep;
    cbn [foldl]; [done |].
  apply NoDup_cons in Hcs as [Hc Hcs]. apply IH; try done.
  - apply NoDup_app. split_all; [done | | apply Hf; left].
    intros k Hk Hin. by apply (Hdisj c k ltac:(left)).
  - intros c' Hc'. apply Hf. by right.
  - intros c' k Hc' Hk Hin. apply elem_of_app in Hin as [Hin | Hin].
    + by apply (Hdisj c' k ltac:(by right)).
    + assert (c = c') as -> by (apply (Hsep c c' k); (left || right || done); done).
      done.
  - intros c1 c2 k H1 H2. apply Hsep; by right.
Qed.

Lemma all_keys_NoDup (kpb : list (list byte)) (n : nat) :
  Forall NoDup kpb ->
  forall key_part offset, (length kpb - offset)%nat = n ->
    NoDup (all_keys kpb key_part offset).
Proof.
  intros Hnd. induction n as [| n IH]; intros key_part offset Hn.
  - rewrite all_keys_done by lia. apply NoDup_singleton.
  - rewrite all_keys_step by lia.
    destruct (lookup_lt_is_Some_2 kpb offset ltac:(lia)) as [cs Hcs].
    rewrite (nth_lookup_Some _ _ _ _ Hcs). apply foldl_app_NoDup.
    + constructor.
    + rewrite Forall_forall in Hnd. apply Hnd. by eapply list_elem_of_lookup_2.
    + intros c _. apply IH. lia.
    + intros c k _ _ Hin. by apply elem_of_nil in Hin.
    + intros c1 c2 k _ _ H1 H2.
      apply (all_keys_elem kpb n) in H1 as (s1 & -> & _); [| lia].
      apply (all_keys_elem kpb n) in H2 as (s2 & Heq & _); [| lia].
      rewrite <- !app_assoc in Heq. apply app_inv_head in Heq. by injection Heq.
Qed.

(** X8.  [all_keys] enumerates the Cartesian product of the candidate
    bytes: a key is returned exactly when it takes one byte from the list
    of each offset, in offset order; when no list repeats a byte, no key is
    returned twice. *)
Theorem all_keys_cartesian_product (kpb : list (list byte)) :
  (forall key, key ∈ all_keys kpb [] 0 <-> Forall2 (fun c cs => c ∈ cs) key kpb) /\
  (Forall NoDup kpb -> NoDup (all_keys kpb [] 0)).
Proof.
  split.
  - intros key. rewrite (all_keys_elem kpb (length kpb)) by lia. rewrite drop_0.
    split; [by intros (s & -> & Hs) | intros Hs; by exists key].
  - intros Hnd. apply (all_keys_NoDup kpb (length kpb)); [done | lia].
Qed.

Lemma all_keys_cartesian_product_witness :
  Forall NoDup [text_of "ab"; text_of "c"] /\
  NoDup (all_keys [text_of "ab"; text_of "c"] [] 0).
Proof.
  assert (Forall NoDup [text_of "ab"; text_of "c"]) as Hnd.
  { repeat constructor; rewrite ?elem_of_cons, ?elem_of_nil; intros H;
      repeat destruct H as [H | H]; done. }
  split; [done |]. by apply (all_keys_cartesian_product [text_of "ab"; text_of "c"]).
Defined.

(** ** The key that encrypted the text is among the guesses *)

Lemma histogram_le_max (text : list byte) (key_length offset : Z) (b : byte) :
  Z.of_nat (histogram text key_length offset b) <= histogram_max text key_length offset.
Proof.
  unfold histogram_max. apply inj_le, max_list_elem_of_le, list_elem_of_fmap.
  exists b. split; [done | apply elem_of_all_bytes].
Qed.

Lemma histogram_max_attained (text : list byte) (key_length offset : Z) :
  exists b, Z.of_nat (histogram text key_length offset b)
            = histogram_max text key_length offset.
Proof.
  unfold histogram_max.
  assert (histogram text key_length offset <$> all_bytes ≠ []) as Hne.
  { intros Hnil. apply fmap_nil_inv in Hnil.
    pose proof (elem_of_all_bytes x00) as H. rewrite Hnil in H.
    by apply elem_of_nil in H. }
  apply max_list_elem_of, list_elem_of_fmap in Hne as (b & Hb & _).
  exists b. by rewrite Hb.
Qed.

Lemma xor_byte_involutive (m : Z) (c : byte) :
  0 <= m < 256 -> xor_byte m (xor_byte m c) = c.
Proof.
  intros Hm. apply ord_inj. rewrite !(proj2 (chr_xor m _ Hm)).
  by rewrite Z.lxor_assoc, Z.lxor_nilpotent, Z.lxor_0_r.
Qed.

Lemma filter_ext_elem {A : Type} (P Q : A -> Prop)
  `{!forall x, Decision (P x), !forall x, Decision (Q x)} (l : list A) :
  (forall x, x ∈ l -> P x <-> Q x) -> filter P l = filter Q l.
Proof.
  induction l as [| x l IH]; intros Hext; [done |].
  rewrite !filter_cons, IH by (intros; apply Hext; by right).
  destruct (decide (P x)) as [HP | HP].
  - by rewrite decide_True by (by apply Hext; [left |]).
  - rewrite decide_False; [done |]. intros HQ. apply HP. by apply Hext; [left |].
Qed.

Lemma residue_class_len (text plain : list byte) (key_length offset : Z) :
  len text = len plain ->
  residue_class text key_length offset = residue_class plain key_length offset.
Proof. intros H. unfold residue_class. by rewrite H. Qed.

(** Under the encryption, the histogram of an offset of the text is the
    histogram of the plaintext with the bytes renamed by the key byte. *)
Lemma histogram_xor (plain key text : list byte) (offset : Z) (k b : byte) :
  repeating_key_xor plain key text ->
  0 < len key -> 0 <= offset < len key ->
  char_at key offset = Some k ->
  histogram text (len key) offset b
  = histogram plain (len key) offset (xor_byte (ord k) b).
Proof.
  intros [Hlen Hxor] HL Hoff Hk. unfold histogram.
  rewrite (residue_class_len text plain) by done. f_equal.
  apply filter_ext_elem. intros pos Hpos.
  unfold residue_class in Hpos. apply list_elem_of_filter in Hpos as [Hmod Hpos].
  apply elem_of_range in Hpos.
  destruct (char_at_valid plain pos Hpos) as [p Hp].
  destruct (Hxor pos p ltac:(lia) Hp) as (k' & Hk' & Ht).
  rewrite Hmod, Hk in Hk'. injection Hk' as <-. rewrite Ht, Hp.
  pose proof (ord_bounds k) as Hkb. split.
  - intros [= <-]. by rewrite xor_byte_involutive.
  - intros [= ->]. by rewrite xor_byte_involutive.
Qed.

Lemma histogram_max_xor (plain key text : list byte) (offset : Z) (k : byte) :
  repeating_key_xor plain key text ->
  0 < len key -> 0 <= offset < len key ->
  char_at key offset = Some k ->
  histogram_max text (len key) offset = histogram_max plain (len key) offset.
Proof.
  intros Hx HL Hoff Hk. pose proof (ord_bounds k) as Hkb.
  apply Z.le_antisymm.
  - destruct (histogram_max_attained text (len key) offset) as [b <-].
    rewrite (histogram_xor plain key text offset k) by done.
    apply histogram_le_max.
  - destruct (histogram_max_attained plain (len key) offset) as [p <-].
    rewrite <- (xor_byte_involutive (ord k) p) by done.
    rewrite <- (histogram_xor plain key text offset k) by done.
    apply histogram_le_max.
Qed.

(** X9.  If the text is a plaintext encrypted with a repeating key no longer
    than the text, the length of the key is known, and the most frequent
    character supplied is, at every offset of the key, a most frequent byte
    of the plaintext at that offset, then [guess_keys] returns a list of
    keys that contains the key. *)
Theorem true_key_guessed (P : PARAMETERS) (plain key text : list byte) (mc : byte) :
  repeating_key_xor plain key text ->
  known_key_length P = Some (len key) ->
  most_frequent_char P = Some (ord mc) ->
  1 <= len key <= len text ->
  (forall offset, 0 <= offset < len key ->
     Z.of_nat (histogram plain (len key) offset mc)
     = histogram_max plain (len key) offset) ->
  exists keys, guess_keys P text = Ok keys /\ key ∈ keys.
Proof.
  intros Hx HL Hmc Hlen Hfreq. pose proof (ord_bounds mc) as Hmcb.
  destruct (guess_keys_correct P text (len key) (ord mc) HL Hmc Hmcb ltac:(lia))
    as (keys & Hkeys & _ & _ & Hsets).
  exists keys. split; [done |].
  unfold guess_keys in Hkeys. rewrite HL, Hmc in Hkeys. cbn [as_int] in Hkeys.
  rewrite bind_Ok in Hkeys.
  pose proof (guess_keys_loop text (len key) (ord mc)
                (Z.to_nat (len key)) 0 Hmcb) as Hloop.
  rewrite (range2_empty 0 0) in Hloop by lia. cbn [fmap list_fmap app] in Hloop.
  unfold range at 1 2 in Hkeys. rewrite Hloop in Hkeys by lia. cbn in Hkeys.
  injection Hkeys as <-.
  apply all_keys_elem with (n := length (offset_bytes text (len key) (ord mc)
                                            <$> range (len key))); [lia |].
  exists key. split; [done |]. rewrite drop_0.
  apply Forall2_same_length_lookup. split.
  { rewrite length_fmap. unfold range, range2. rewrite length_seqZ. unfold len. lia. }
  intros i k set Hk Hset.
  assert (0 <= Z.of_nat i < len key) as Hi
    by (apply lookup_lt_Some in Hk; unfold len; lia).
  destruct (Hsets (Z.of_nat i) Hi) as (set' & Hset' & _ & Hcand).
  rewrite Nat2Z.id in Hset'. rewrite Hset in Hset'. injection Hset' as <-.
  apply Hcand. unfold is_candidate.
  assert (char_at key (Z.of_nat i) = Some k) as Hck
    by (unfold char_at; by rewrite Nat2Z.id).
  pose proof (ord_bounds k) as Hkb.
  exists (xor_byte (ord k) mc). split.
  - rewrite (histogram_xor plain key text (Z.of_nat i) k) by (done || lia).
    rewrite xor_byte_involutive by done.
    rewrite (histogram_max_xor plain key text (Z.of_nat i) k) by (done || lia).
    by apply Hfreq.
  - rewrite (proj2 (chr_xor (ord k) mc Hkb)).
    by rewrite (Z.lxor_comm (ord mc)), Z.lxor_assoc, Z.lxor_nilpotent, Z.lxor_0_r.
Qed.

Lemma repeating_key_xor_sample : repeating_key_xor plain_spaces key_ab text_ABAB.
Proof.
  split; [reflexivity |]. intros pos p Hpos Hp.
  assert (pos = 0 \/ pos = 1 \/ pos = 2 \/ pos = 3) as Hcases.
  { unfold char_at in Hp. apply lookup_lt_Some in Hp. cbn in Hp. lia. }
  destruct Hcases as [-> | [-> | [-> | ->]]]; injection Hp as <-;
    eexists; split; reflexivity.
Qed.

Lemma true_key_guessed_witness :
  (repeating_key_xor plain_spaces key_ab text_ABAB /\
   known_key_length params_ab = Some (len key_ab) /\
   most_frequent_char params_ab = Some (ord " "%byte) /\
   1 <= len key_ab <= len text_ABAB /\
   (forall offset, 0 <= offset < len key_ab ->
      Z.of_nat (histogram plain_spaces (len key_ab) offset " "%byte)
      = histogram_max plain_spaces (len key_ab) offset)) /\
  exists keys, guess_keys params_ab text_ABAB = Ok keys /\ key_ab ∈ keys.
Proof.
  assert (forall offset, 0 <= offset < len key_ab ->
      Z.of_nat (histogram plain_spaces (len key_ab) offset " "%byte)
      = histogram_max plain_spaces (len key_ab) offset) as Hfreq.
  { intros offset Hoff. change (len key_ab) with 2 in *.
    assert (offset = 0 \/ offset = 1) as [-> | ->] by lia; vm_compute; reflexivity. }
  assert (1 <= len key_ab <= len text_ABAB) as Hlen by (by compute).
  split.
  - split_all; (done || reflexivity || apply repeating_key_xor_sample).
  - apply (true_key_guessed params_ab plain_spaces key_ab text_ABAB " "%byte);
      (done || reflexivity || apply repeating_key_xor_sample).
Defined.

(** ** The divisor hint *)

Lemma count_divizor_loop (k : Z) (n : nat) :
  forall (a : Z) (dc : list Z),
    1 <= a -> Z.to_nat (k + 1 - a) = n -> k < len dc ->
    exists dc', for_loop (count_divizor k) dc (range2 a (k + 1)) = Ok dc'
      /\ length dc' = length dc
      /\ forall i v, dc !! i = Some v ->
           dc' !! i = Some (v + if decide (a <= Z.of_nat i <= k /\ k mod Z.of_nat i = 0)
                                then 1 else 0).
Proof.
  induction n as [| n IH]; intros a dc Ha Hn Hk.
  - rewrite range2_empty by lia. exists dc. split_all; [done | done |].
    intros i v Hi. rewrite decide_False by lia. rewrite Hi. f_equal. lia.
  - unfold range2. rewrite seqZ_cons by lia.
    replace (Z.pred (k + 1 - a)) with (k + 1 - Z.succ a) by lia.
    fold (range2 (Z.succ a) (k + 1)). cbn [for_loop].
    destruct (lookup_lt_is_Some_2 dc (Z.to_nat a)) as [va Hva];
      [unfold len in Hk; lia |].
    assert (count_divizor k dc a
            = Ok (if k mod a =? 0 then <[Z.to_nat a := va + 1]> dc else dc)) as ->.
    { unfold count_divizor. destruct (k mod a =? 0); [| done].
      rewrite (getitem_valid _ _ va), bind_Ok by (done || lia).
      by rewrite setitem_valid by lia. }
    rewrite bind_Ok.
    destruct (IH (Z.succ a) (if k mod a =? 0 then <[Z.to_nat a := va + 1]> dc else dc))
      as (dc' & Hloop & Hlen' & Hdc'); [lia | lia | |].
    { destruct (k mod a =? 0); [| done]. unfold len. rewrite length_insert.
      unfold len in Hk. lia. }
    exists dc'. split_all; [done | |].
    { rewrite Hlen'. destruct (k mod a =? 0); [apply length_insert | done]. }
    intros i v Hi.
    destruct (decide (i = Z.to_nat a)) as [-> | Hne].
    + rewrite Hva in Hi. injection Hi as ->. rewrite Z2Nat.id by lia.
      destruct (Z.eqb_spec (k mod a) 0) as [Hdiv | Hdiv].
      * rewrite (Hdc' (Z.to_nat a) (v + 1)) by (apply list_lookup_insert_eq;
          unfold len in Hk; lia).
        rewrite Z2Nat.id by lia. rewrite decide_False by lia.
        rewrite decide_True by lia. f_equal. lia.
      * rewrite (Hdc' (Z.to_nat a) v) by done. rewrite Z2Nat.id by lia.
        rewrite decide_False by lia. by rewrite decide_False by tauto.
    + assert ((if k mod a =? 0 then <[Z.to_nat a := va + 1]> dc else dc) !! i = Some v)
        as Hi' by (destruct (k mod a =? 0); [by rewrite list_lookup_insert_ne | done]).
      rewrite (Hdc' i v Hi'). f_equal. f_equal.
      destruct (decide (Z.succ a <= Z.of_nat i <= k /\ k mod Z.of_nat i = 0)) as [H1 | H1].
      * by rewrite decide_True by lia.
      * rewrite decide_False; [done |]. intros [H2 H3]. apply H1. split; [lia | done].
Qed.

Lemma divizor_count_cons (e : Z * R) (table : list (Z * R)) (number : Z) :
  divizor_count (e :: table) number
  = (if decide (3 <= number <= fst e /\ fst e mod number = 0) then 1 else 0)
    + divizor_count table number.
Proof.
  unfold divizor_count. rewrite filter_cons.
  destruct (decide (3 <= number <= fst e /\ fst e mod number = 0)); cbn [length]; lia.
Qed.

Lemma divizors_loop (table : list (Z * R)) :
  forall dc : list Z,
    (forall e, e ∈ table -> fst e < len dc) ->
    exists dc',
      for_loop (fun dc (entry : Z * R) =>
                  for_loop (count_divizor (fst entry)) dc (range2 3 (fst entry + 1)))
               dc table = Ok dc'
      /\ length dc' = length dc
      /\ forall i v, dc !! i = Some v ->
           dc' !! i = Some (v + divizor_count table (Z.of_nat i)).
Proof.
  induction table as [| e table IH]; intros dc Hb.
  - exists dc. split_all; [done | done |]. intros i v ->. f_equal.
    unfold divizor_count. cbn. lia.
  - cbn [for_loop].
    destruct (count_divizor_loop (fst e) (Z.to_nat (fst e + 1 - 3)) 3 dc)
      as (dc1 & -> & Hlen1 & Hdc1); [lia | done | apply Hb; left |].
    rewrite bind_Ok.
    destruct (IH dc1) as (dc' & Hloop & Hlen' & Hdc').
    { intros e' He'. unfold len. rewrite Hlen1. apply Hb. by right. }
    exists dc'. split_all; [done | congruence |].
    intros i v Hi. rewrite (Hdc' i _ (Hdc1 i v Hi)), divizor_count_cons.
    f_equal. lia.
Qed.

Lemma enumerate_snoc {A : Type} (l : list A) (x : A) :
  enumerate (l ++ [x]) = enumerate l ++ [(len l, x)].
Proof.
  unfold enumerate, range, len. rewrite length_app. cbn [length].
  replace (Z.of_nat (length l + 1)) with (Z.of_nat (length l) + 1) by lia.
  rewrite range2_snoc by lia. rewrite zip_with_app; [done |].
  unfold range2. rewrite length_seqZ. lia.
Qed.

(** The last loop of [guess_and_print_divizors] keeps the last index that
    holds the maximum. *)
Lemma last_maximum (l : list Z) (m r0 : Z) :
  let r := foldl (fun ret (e : Z * Z) => if snd e =? m then fst e else ret)
                 r0 (enumerate l) in
  (r = r0 /\ forall x, x ∈ l -> x <> m)
  \/ (0 <= r < len l /\ l !! Z.to_nat r = Some m
      /\ forall j, r < j < len l -> l !! Z.to_nat j <> Some m).
Proof.
  induction l as [| x l IH] using rev_ind.
  - left. split; [done |]. intros x Hx. by apply elem_of_nil in Hx.
  - cbn zeta in *. rewrite enumerate_snoc, foldl_snoc. cbn [fst snd].
    assert (len (l ++ [x]) = len l + 1) as Hlen
      by (unfold len; rewrite length_app; cbn; lia).
    destruct (Z.eqb_spec x m) as [-> | Hne].
    + right. rewrite Hlen. split_all; [unfold len; lia | unfold len; lia | |].
      * unfold len. rewrite Nat2Z.id. by apply list_lookup_middle.
      * intros j Hj. lia.
    + destruct IH as [[-> Hall] | (Hr & Hlook & Hlater)].
      * left. split; [done |]. intros y Hy.
        apply elem_of_app in Hy as [Hy | Hy]; [by apply Hall |].
        by apply list_elem_of_singleton in Hy as ->.
      * right. rewrite Hlen. split_all; [lia | lia | |].
        -- rewrite lookup_app_l by (unfold len in Hr; lia). done.
        -- intros j Hj. destruct (Z.eq_dec j (len l)) as [-> | Hjl].
           ++ unfold len. rewrite Nat2Z.id, list_lookup_middle by done. congruence.
           ++ rewrite lookup_app_l by (unfold len in *; lia). apply Hlater. lia.
Qed.

(** The counts held by [divizors_counts] when the two nested loops end. *)
Lemma divizors_counted (P : PARAMETERS) (table : list (Z * R)) :
  0 <= max_key_length P ->
  (forall e, e ∈ table -> fst e <= max_key_length P) ->
  exists dc,
    for_loop (fun dc (entry : Z * R) =>
                for_loop (count_divizor (fst entry)) dc (range2 3 (fst entry + 1)))
             ((fun _ : Z => 0) <$> range (max_key_length P + 1)) table = Ok dc
    /\ len dc = max_key_length P + 1
    /\ forall n, 0 <= n <= max_key_length P ->
         dc !! Z.to_nat n = Some (divizor_count table n).
Proof.
  intros Hmax Hb.
  set (dc0 := (fun _ : Z => 0) <$> range (max_key_length P + 1)).
  assert (len dc0 = max_key_length P + 1) as Hlen0.
  { unfold dc0, len, range, range2. rewrite length_fmap, length_seqZ. lia. }
  assert (forall i, Z.of_nat i <= max_key_length P -> dc0 !! i = Some 0) as Hdc0.
  { intros i Hi. unfold dc0, range, range2.
    by rewrite list_lookup_fmap, lookup_seqZ_lt by lia. }
  destruct (divizors_loop table dc0) as (dc & Hloop & Hlen & Hdc).
  { intros e He. specialize (Hb e He). lia. }
  exists dc. split_all; [done | unfold len in *; lia |].
  intros n Hn. rewrite (Hdc (Z.to_nat n) 0) by (apply Hdc0; lia).
  rewrite Z2Nat.id by lia. f_equal; lia.
Qed.

Lemma guess_and_print_divizors_total (P : PARAMETERS) (table : list (Z * R)) :
  0 <= max_key_length P ->
  (forall e, e ∈ table -> fst e <= max_key_length P) ->
  exists ret, guess_and_print_divizors P table = Ok ret.
Proof.
  intros Hmax Hb. unfold guess_and_print_divizors.
  destruct (divizors_counted P table Hmax Hb) as (dc & -> & Hlendc & _).
  rewrite bind_Ok. destruct dc as [| x dc].
  - unfold len in Hlendc. cbn in Hlendc. lia.
  - eexists. reflexivity.
Qed.

(** X6.  When [max_key_length] is not negative and no length of the table
    exceeds it, [guess_and_print_divizors] returns a number between 0 and
    [max_key_length] whose divisor count is the largest, and the largest
    such number; on an empty table this is [max_key_length] itself. *)
Theorem guess_and_print_divizors_spec (P : PARAMETERS) (table : list (Z * R)) :
  0 <= max_key_length P ->
  (forall e, e ∈ table -> fst e <= max_key_length P) ->
  exists ret, guess_and_print_divizors P table = Ok ret
    /\ 0 <= ret <= max_key_length P
    /\ (forall n, 0 <= n <= max_key_length P ->
          divizor_count table n <= divizor_count table ret)
    /\ (forall n, ret < n <= max_key_length P ->
          divizor_count table n < divizor_count table ret)
    /\ (table = [] -> ret = max_key_length P).
Proof.
  intros Hmax Hb. unfold guess_and_print_divizors.
  destruct (divizors_counted P table Hmax Hb) as (dc & -> & Hlendc & Hlook).
  rewrite bind_Ok.
  destruct (py_max dc) as [m | e] eqn:Hm.
  2:{ destruct dc; [unfold len in Hlendc; cbn in Hlendc; lia | discriminate]. }
  apply py_max_Ok in Hm as [Hin Hub]. rewrite bind_Ok.
  eexists. split; [reflexivity |].
  destruct (last_maximum dc m 2) as [[_ Hall] | (Hr & Hrm & Hlater)];
    [by specialize (Hall m Hin) |].
  set (r := foldl _ 2 (enumerate dc)) in *.
  assert (divizor_count table r = m) as Hcount.
  { rewrite Hlook in Hrm by lia. by injection Hrm. }
  assert (forall n, 0 <= n <= max_key_length P -> divizor_count table n <= m) as Hle.
  { intros n Hn. apply Hub. eapply list_elem_of_lookup_2. by apply Hlook. }
  split_all; [lia | lia | | |].
  - intros n Hn. rewrite Hcount. by apply Hle.
  - intros n Hn. rewrite Hcount.
    assert (divizor_count table n <> m) as Hneq.
    { intros Heq. apply (Hlater n); [lia |]. rewrite Hlook by lia. by rewrite Heq. }
    specialize (Hle n ltac:(lia)). lia.
  - intros ->. destruct (Z.eq_dec r (max_key_length P)) as [-> | Hne]; [done |].
    exfalso. apply (Hlater (max_key_length P)); [lia |].
    rewrite Hlook by lia. rewrite <- Hcount. reflexivity.
Qed.

Lemma guess_and_print_divizors_spec_witness :
  (0 <= max_key_length params_abc /\
   forall e, e ∈ table_example -> fst e <= max_key_length params_abc) /\
  exists ret, guess_and_print_divizors params_abc table_example = Ok ret
    /\ 0 <= ret <= max_key_length params_abc.
Proof.
  assert (forall e, e ∈ table_example -> fst e <= max_key_length params_abc) as Hb.
  { intros e He. unfold table_example in He.
    apply elem_of_cons in He as [-> | He]; [unfold fst, max_key_length, params_abc; lia |].
    apply elem_of_cons in He as [-> | He]; [unfold fst, max_key_length, params_abc; lia |].
    apply list_elem_of_singleton in He as ->. unfold fst, max_key_length, params_abc; lia. }
  assert (0 <= max_key_length params_abc) as Hmax
    by (unfold max_key_length, params_abc; lia).
  split; [split; assumption |].
  destruct (guess_and_print_divizors_spec params_abc table_example Hmax Hb)
    as (ret & Hret & Hrange & _).
  exists ret. split; assumption.
Defined.

(** ** The guessed key length *)

Lemma local_maxima_below_len (text : list byte) (bound L : Z) (f : R) :
  (L, f) ∈ local_maxima text bound -> L < len text.
Proof.
  intros Hin.
  pose proof (local_maxima_positive text bound) as Hpos.
  rewrite Forall_forall in Hpos. specialize (Hpos _ Hin). cbn in Hpos.
  apply elem_of_local_maxima in Hin as (HL & -> & _).
  rewrite fitness_at_eq in Hpos by lia. unfold spec_count_equals in Hpos.
  destruct (Z.leb_spec (len text) L); [| done].
  unfold Rdiv in Hpos. rewrite Rmult_0_l in Hpos. lra.
Qed.

Lemma guess_key_length_Ok (P : PARAMETERS) (text : list byte) :
  0 <= max_key_length P ->
  guess_key_length P text
  = Ok (get_max_fitnessed_key_length (local_maxima text (max_key_length P))).
Proof.
  intros Hmax. unfold guess_key_length.
  rewrite calculate_fitnesses_spec, bind_Ok.
  destruct (guess_and_print_divizors_total P (local_maxima text (max_key_length P)) Hmax)
    as (ret & ->); [| done].
  intros [L f] Hin. apply elem_of_local_maxima in Hin. cbn. lia.
Qed.

(** The best length of the table of the sweep. *)
Lemma best_length_of_sweep (text : list byte) (bound : Z) :
  let table := local_maxima text bound in
  let k := get_max_fitnessed_key_length table in
  (table = [] -> k = 0) /\
  (table <> [] ->
   1 <= k < bound /\ k < len text
   /\ exists f, (k, f) ∈ table /\ forall e, e ∈ table -> (snd e <= f)%R).
Proof.
  cbn zeta. split.
  - intros ->. reflexivity.
  - intros Hne.
    destruct (local_maxima text bound) as [| e0 table] eqn:Htab; [done |].
    destruct (get_max_first_maximum (e0 :: table))
      as (l1 & e & l2 & Heq & Hk & Hpos & H1 & H2).
    { exists e0. split; [left |].
      pose proof (local_maxima_positive text bound) as Hall.
      rewrite Htab in Hall. by apply Forall_cons_1 in Hall as [H _]. }
    assert (e ∈ local_maxima text bound) as Hin.
    { rewrite Htab, Heq, elem_of_app, elem_of_cons. right. by left. }
    rewrite Hk. destruct e as [L f]. cbn [fst snd] in *.
    pose proof (local_maxima_below_len _ _ _ _ Hin) as Hlen.
    apply elem_of_local_maxima in Hin as (HL & _).
    split_all; [lia | lia | done |].
    exists f. split.
    + rewrite Heq, elem_of_app, elem_of_cons. right. by left.
    + intros e'. rewrite Heq, elem_of_app, elem_of_cons.
      intros [He' | [-> | He']]; [left; by apply H1 | cbn; lra | by apply H2].
Qed.

(** X7.  When [max_key_length] is not negative, [guess_key_length] returns:
    the result is 0 when the table is empty, and otherwise a length of the
    table, at least 1, below [max_key_length] and below the length of the
    text, whose fitness is the highest of the table.  When [max_key_length]
    is negative, the divisor hint takes the maximum of an empty list and
    [guess_key_length] raises. *)
Theorem guess_key_length_spec (P : PARAMETERS) (text : list byte) :
  (0 <= max_key_length P ->
   exists k table,
     calculate_fitnesses P text = Ok table
     /\ guess_key_length P text = Ok k
     /\ (table = [] -> k = 0)
     /\ (table <> [] ->
         1 <= k < max_key_length P /\ k < len text
         /\ exists f, (k, f) ∈ table /\ forall e, e ∈ table -> (snd e <= f)%R)) /\
  (max_key_length P < 0 ->
   guess_key_length P text = Raise (ValueError "max() arg is an empty sequence")).
Proof.
  split.
  - intros Hmax. eexists _, _.
    split; [apply calculate_fitnesses_spec |].
    split; [by apply guess_key_length_Ok |].
    apply best_length_of_sweep.
  - intros Hneg. unfold guess_key_length.
    rewrite calculate_fitnesses_spec, bind_Ok, local_maxima_low by lia.
    unfold guess_and_print_divizors. rewrite (range2_empty 0) by lia. reflexivity.
Qed.

Lemma guess_key_length_spec_witness :
  0 <= max_key_length params_aa /\
  exists k, guess_key_length params_aa text_aa = Ok k.
Proof.
  assert (0 <= max_key_length params_aa) as Hmax
    by (unfold max_key_length, params_aa; lia).
  split; [assumption |].
  destruct (proj1 (guess_key_length_spec params_aa text_aa) Hmax)
    as (k & table & _ & Hk & _).
  exists k. assumption.
Defined.

(** ** Key guessing end to end *)

Lemma offset_bytes_nonempty (text : list byte) (key_length most_char offset : Z) :
  0 <= most_char < 256 ->
  0 < key_length -> 0 <= offset < key_length -> offset < len text ->
  offset_bytes text key_length most_char offset <> [].
Proof.
  intros Hmc HL Hoff Hlen Hnil.
  destruct (histogram_max_attained text key_length offset) as [b Hb].
  assert (xor_byte most_char b ∈ offset_bytes text key_length most_char offset) as Hin.
  { apply elem_of_offset_bytes; try done. exists b. split; [done |]. by apply chr_xor. }
  rewrite Hnil in Hin. by apply elem_of_nil in Hin.
Qed.

Lemma product_pos (l : list nat) :
  Forall (fun n => (0 < n)%nat) l -> (0 < product l)%nat.
Proof.
  induction 1 as [| n l Hn _ IH]; unfold product in *; cbn [foldr]; [lia |].
  apply Nat.mul_pos_pos; assumption.
Qed.

Lemma guess_keys_nonempty (P : PARAMETERS) (text : list byte) (key_length most_char : Z) :
  known_key_length P = Some key_length ->
  most_frequent_char P = Some most_char ->
  0 <= most_char < 256 ->
  0 <= key_length <= len text ->
  exists keys, guess_keys P text = Ok keys
    /\ keys <> []
    /\ forall key, key ∈ keys -> len key = key_length.
Proof.
  intros HL Hmc Hbyte Hlen.
  destruct (guess_keys_correct P text key_length most_char HL Hmc Hbyte Hlen)
    as (keys & Hkeys & Hcount & Hlens & _).
  exists keys. split_all; [done | | done].
  intros ->. cbn [length] in Hcount.
  assert (0 < product (length <$> (offset_bytes text key_length most_char
                                     <$> range key_length)))%nat; [| lia].
  apply product_pos, Forall_forall. intros n Hn.
  apply list_elem_of_fmap in Hn as (set & -> & Hset).
  apply list_elem_of_fmap in Hset as (offset & -> & Hoff).
  apply elem_of_range in Hoff.
  pose proof (offset_bytes_nonempty text key_length most_char offset Hbyte) as Hne.
  destruct (offset_bytes text key_length most_char offset); [| cbn; lia].
  exfalso. apply Hne; (done || lia).
Qed.

(** X11.  When the key length is not given, [max_key_length] is not negative
    and the most frequent character is a byte, [main] never raises: it
    returns a non-empty list of keys, all of the guessed length. *)
Theorem main_estimated (P : PARAMETERS) (text : list byte) (most_char : Z) :
  truthy (known_key_length P) = false ->
  0 <= max_key_length P ->
  most_frequent_char P = Some most_char ->
  0 <= most_char < 256 ->
  exists k keys,
    guess_key_length P text = Ok k
    /\ main P text = Ok keys
    /\ keys <> []
    /\ forall key, key ∈ keys -> len key = k.
Proof.
  intros Hk Hmax Hmc Hbyte.
  pose proof (guess_key_length_Ok P text Hmax) as Hg.
  pose proof (best_length_of_sweep text (max_key_length P)) as [Hnil Hcons].
  cbn zeta in Hnil, Hcons.
  set (k := get_max_fitnessed_key_length (local_maxima text (max_key_length P))) in *.
  assert (0 <= k <= len text) as Hrange.
  { destruct (local_maxima text (max_key_length P)) as [| e table].
    - rewrite Hnil by done. unfold len. lia.
    - destruct Hcons as (H1 & H2 & _); [done | lia]. }
  destruct (guess_keys_nonempty (set_known_key_length P k) text k most_char)
    as (keys & Hkeys & Hne & Hlens); try done.
  exists k, keys. split_all; try done.
  unfold main, update_key_length. rewrite Hk, Hg, !bind_Ok.
  unfold guess_probable_keys. cbn [set_known_key_length most_frequent_char].
  by rewrite Hmc.
Qed.

Lemma main_estimated_witness :
  (truthy (known_key_length params_aa) = false /\
   0 <= max_key_length params_aa /\
   most_frequent_char params_aa = Some 32 /\
   0 <= 32 < 256) /\
  exists k keys,
    guess_key_length params_aa text_aa = Ok k
    /\ main params_aa text_aa = Ok keys
    /\ keys <> []
    /\ forall key, key ∈ keys -> len key = k.
Proof.
  assert (0 <= max_key_length params_aa) as Hmax
    by (unfold max_key_length, params_aa; lia).
  assert (0 <= 32 < 256) as Hbyte by lia.
  split; [split_all; (reflexivity || assumption) |].
  exact (main_estimated params_aa text_aa 32 eq_refl Hmax eq_refl Hbyte).
Defined.

(** ** A key length longer than the text *)

(** The outer loop of [guess_keys] over the offsets from [j] up to [m], all
    of them positions of the text. *)
Lemma guess_keys_loop_prefix (text : list byte) (key_length most_char m : Z) (n : nat) :
  0 <= most_char < 256 ->
  forall j, 0 <= j -> j + Z.of_nat n = m -> m <= key_length -> m <= len text ->
  for_loop (guess_keys_body text key_length (Some most_char))
           ((offset_bytes text key_length most_char <$> range2 0 j)
              ++ ((fun _ : Z => []) <$> range2 j key_length))
           (range2 j m)
  = Ok ((offset_bytes text key_length most_char <$> range2 0 m)
          ++ ((fun _ : Z => []) <$> range2 m key_length)).
Proof.
  intros Hmc. induction n as [| n IH]; intros j Hj Hn Hm Hlen.
  - rewrite (range2_empty j m) by lia. replace j with m by lia. reflexivity.
  - assert (length (offset_bytes text key_length most_char <$> range2 0 j)
            = Z.to_nat j) as Hpre.
    { rewrite length_fmap. unfold range2. rewrite length_seqZ. f_equal. lia. }
    assert (range2 j m = j :: range2 (j + 1) m) as ->.
    { unfold range2. rewrite seqZ_cons by lia. do 2 f_equal; lia. }
    assert (range2 j key_length = j :: range2 (j + 1) key_length) as ->.
    { unfold range2. rewrite seqZ_cons by lia. do 2 f_equal; lia. }
    cbn [for_loop fmap list_fmap].
    rewrite guess_keys_body_Ok; try done; try lia.
    + rewrite bind_Ok. rewrite insert_app_r_alt by lia.
      rewrite Hpre, Nat.sub_diag. cbn [insert list_insert].
      rewrite (cons_middle (offset_bytes _ _ _ j)), app_assoc.
      rewrite <- (IH (j + 1)) by lia. f_equal. f_equal.
      rewrite range2_snoc by lia. by rewrite fmap_app.
    + unfold len. rewrite length_app, Hpre. cbn [length]. lia.
    + rewrite lookup_app_r by lia. by rewrite Hpre, Nat.sub_diag.
Qed.

Lemma chars_count_past_end (text : list byte) (key_length : Z) :
  len text < key_length ->
  chars_count_at_offset text key_length (len text) = Ok ∅.
Proof.
  intros H. assert (0 <= len text) by (unfold len; lia).
  unfold chars_count_at_offset. rewrite range3_positions by lia.
  unfold positions, range_len. destruct (Z.ltb_spec 0 key_length); [| lia].
  replace (len text - len text + key_length - 1) with (key_length - 1) by lia.
  rewrite Z.div_small by lia. reflexivity.
Qed.

Lemma guess_keys_body_past_end (text : list byte) (key_length : Z)
  (most_char : option Z) (kpb : list (list byte)) :
  len text < key_length ->
  guess_keys_body text key_length most_char kpb (len text)
  = Raise (ValueError "max() arg is an empty sequence").
Proof.
  intros H. unfold guess_keys_body. by rewrite chars_count_past_end.
Qed.

(** X10.  When the known key length exceeds the length of the text and the
    most frequent character is a byte, [guess_keys] raises: at the offset
    equal to the length of the text the frequency table is empty and [max]
    has no argument. *)
Theorem guess_keys_too_long (P : PARAMETERS) (text : list byte)
  (key_length most_char : Z) :
  known_key_length P = Some key_length ->
  most_frequent_char P = Some most_char ->
  0 <= most_char < 256 ->
  len text < key_length ->
  guess_keys P text = Raise (ValueError "max() arg is an empty sequence").
Proof.
  intros HL Hmc Hbyte Hlong. assert (0 <= len text) as Hnn by (unfold len; lia).
  unfold guess_keys. rewrite HL, Hmc. cbn [as_int]. rewrite bind_Ok.
  assert (range key_length = range2 0 (len text) ++ len text :: range2 (len text + 1) key_length)
    as Hsplit.
  { unfold range, range2.
    replace (key_length - 0) with ((len text - 0) + (key_length - len text)) by lia.
    rewrite seqZ_app by lia. f_equal.
    rewrite seqZ_cons by lia. do 2 f_equal; lia. }
  rewrite Hsplit at 2. rewrite for_loop_app.
  pose proof (guess_keys_loop_prefix text key_length most_char (len text)
                (Z.to_nat (len text)) Hbyte 0) as Hloop.
  rewrite (range2_empty 0 0) in Hloop by lia. cbn [fmap list_fmap app] in Hloop.
  unfold range at 1. rewrite Hloop, bind_Ok by lia.
  cbn [for_loop]. by rewrite guess_keys_body_past_end.
Qed.

Lemma guess_keys_too_long_witness :
  (known_key_length params_long = Some 2 /\
   most_frequent_char params_long = Some 32 /\
   0 <= 32 < 256 /\ len text_a < 2) /\
  guess_keys params_long text_a = Raise (ValueError "max() arg is an empty sequence").
Proof.
  assert (0 <= 32 < 256) as Hbyte by lia.
  assert (len text_a < 2) as Hlong by (unfold len, text_a; cbn; lia).
  split; [split_all; (reflexivity || assumption || lia) |].
  exact (guess_keys_too_long params_long text_a 2 32 eq_refl eq_refl Hbyte Hlong).
Defined.

(** ** The frequency table is the histogram of the residue class *)

(** X1.  For a positive key length and an offset below it,
    [chars_count_at_offset] returns a table that holds a byte exactly when
    the byte occurs at a position of the text congruent to the offset, with
    the number of these positions as its count; the table is empty exactly
    when the offset is not a position of the text. *)
Theorem chars_count_at_offset_histogram (text : list byte) (key_length offset : Z) :
  0 < key_length -> 0 <= offset < key_length ->
  exists d, chars_count_at_offset text key_length offset = Ok d
    /\ (forall b n, d !! b = Some n <->
           (n = Z.of_nat (histogram text key_length offset b) /\ 0 < n))
    /\ (d = ∅ <-> len text <= offset).
Proof.
  intros HL Hoff. eexists. split; [by apply chars_count_at_offset_tally |]. split.
  - intros b n. rewrite tally_empty_lookup. by rewrite occurrences_histogram.
  - split.
    + intros Hd. destruct (Z.le_gt_cases (len text) offset) as [Hle | Hgt]; [done |].
      pose proof (py_max_tally _ (positions_nonempty text key_length offset HL Hoff Hgt))
        as Hmax.
      rewrite Hd in Hmax. unfold dict_values in Hmax.
      rewrite map_to_list_empty in Hmax. discriminate.
    + intros Hle.
      assert (positions offset (len text) key_length = []) as ->; [| reflexivity].
      apply elem_of_nil_inv. intros x Hx.
      apply elem_of_positions in Hx as [Hx Hmod]; [| lia | lia | unfold len; lia].
      pose proof (Z.mod_le x key_length ltac:(lia) HL). lia.
Qed.

Lemma chars_count_at_offset_histogram_witness :
  (0 < 3 /\ 0 <= 1 < 3) /\
  exists d, chars_count_at_offset text_abc 3 1 = Ok d
    /\ (forall b n, d !! b = Some n <->
           (n = Z.of_nat (histogram text_abc 3 1 b) /\ 0 < n))
    /\ (d = ∅ <-> len text_abc <= 1).
Proof.
  split; [lia |]. apply (chars_count_at_offset_histogram text_abc 3 1); lia.
Defined.

(** ** Bounds of the coincidence count *)

Lemma sum_Z_le {A : Type} (f g : A -> Z) (l : list A) :
  (forall x, x ∈ l -> f x <= g x) -> sum_Z (f <$> l) <= sum_Z (g <$> l).
Proof.
  induction l as [| x l IH]; intros H; csimpl; [lia |].
  pose proof (H x ltac:(left)).
  assert (sum_Z (f <$> l) <= sum_Z (g <$> l)) by (apply IH; intros; apply H; by right).
  lia.
Qed.

Lemma sum_Z_const {A : Type} (c : Z) (l : list A) :
  sum_Z ((fun _ => c) <$> l) = c * Z.of_nat (length l).
Proof. induction l as [| x l IH]; csimpl; [lia |]. rewrite IH. lia. Qed.

Lemma histogram_max_le_class (text : list byte) (key_length offset : Z) :
  histogram_max text key_length offset
  <= Z.of_nat (length (residue_class text key_length offset)).
Proof.
  destruct (histogram_max_attained text key_length offset) as [b <-].
  apply inj_le. unfold histogram. apply length_filter.
Qed.

(** X3.  For a key length of at most 0 the coincidence counter returns 0.
    For a key length of at least 1 it returns a number between 0 and the
    number of bytes of the text beyond the key length: every residue class
    contributes at most its size minus one. *)
Theorem count_equals_bounds (text : list byte) (key_length : Z) :
  (key_length <= 0 -> count_equals text key_length = Ok 0) /\
  (1 <= key_length ->
   exists n, count_equals text key_length = Ok n
     /\ 0 <= n <= Z.max 0 (len text - key_length)).
Proof.
  split.
  - intros Hle. unfold count_equals. destruct (len text <=? key_length); [done |].
    unfold range. by rewrite range2_empty by lia.
  - intros HL. exists (spec_count_equals text key_length).
    split; [by apply count_equals_refines |].
    split; [by apply count_equals_nonneg |].
    unfold spec_count_equals.
    destruct (Z.leb_spec (len text) key_length) as [Hge | Hlt]; [lia |].
    pose proof (sum_Z_le (fun offset => histogram_max text key_length offset - 1)
      (fun offset => Z.of_nat (length (residue_class text key_length offset)) + -1)
      (range key_length)) as Hle.
    rewrite sum_Z_fmap_add, sum_Z_const in Hle.
    unfold residue_class in Hle at 2.
    rewrite residue_classes_partition in Hle by lia.
    fold (len (range (len text))) in Hle. fold (len (range key_length)) in Hle.
    rewrite !length_range in Hle by (unfold len; lia).
    assert (sum_Z ((fun offset => histogram_max text key_length offset - 1)
                     <$> range key_length) <= len text + -1 * key_length); [| lia].
    apply Hle. intros offset _.
    pose proof (histogram_max_le_class text key_length offset). lia.
Qed.

Lemma count_equals_bounds_witness :
  1 <= 3 /\
  exists n, count_equals text_abc 3 = Ok n /\ 0 <= n <= Z.max 0 (len text_abc - 3).
Proof.
  split; [lia |]. apply (count_equals_bounds text_abc 3). lia.
Defined.

(** ** The table of the sweep *)

(** X4.  The table returned by [calculate_fitnesses] is in strictly
    ascending order of key length; every reported length is at least 1,
    below [max_key_length] and below the length of the text, its fitness is
    positive, and the next length is never reported as well. *)
Theorem calculate_fitnesses_table (P : PARAMETERS) (text : list byte) :
  exists table, calculate_fitnesses P text = Ok table
    /\ StronglySorted (fun a b => fst a < fst b) table
    /\ forall L f, (L, f) ∈ table ->
         1 <= L < max_key_length P /\ L < len text /\ (0 < f)%R
         /\ forall f', (L + 1, f') ∉ table.
Proof.
  exists (local_maxima text (max_key_length P)).
  split; [apply calculate_fitnesses_spec |].
  split; [apply local_maxima_sorted |].
  intros L f Hin. split_all.
  - apply elem_of_local_maxima in Hin. lia.
  - apply elem_of_local_maxima in Hin. lia.
  - by apply local_maxima_below_len in Hin.
  - pose proof (local_maxima_positive text (max_key_length P)) as Hpos.
    rewrite Forall_forall in Hpos. by apply (Hpos (L, f)).
  - intros f' Hin'.
    apply elem_of_local_maxima in Hin as (_ & _ & _ & Hnext).
    apply elem_of_local_maxima in Hin' as (_ & _ & Hprev & _).
    replace (L + 1 - 1) with L in Hprev by lia. lra.
Qed.

(** X5.  The sum of the fitnesses of the table returned by
    [calculate_fitnesses] is 0 when the table is empty and positive
    otherwise, and no fitness of the table exceeds it. *)
Theorem fitness_sum_positive (P : PARAMETERS) (text : list byte) :
  exists table, calculate_fitnesses P text = Ok table
    /\ (table = [] -> calculate_fitness_sum table = 0%R)
    /\ (table <> [] -> (0 < calculate_fitness_sum table)%R)
    /\ forall e, e ∈ table -> (0 < snd e <= calculate_fitness_sum table)%R.
Proof.
  exists (local_maxima text (max_key_length P)).
  split; [apply calculate_fitnesses_spec |].
  pose proof (local_maxima_positive text (max_key_length P)) as Hpos.
  assert (forall (l : list (Z * R)) (acc : R),
            Forall (fun e => (0 < snd e)%R) l ->
            (acc <= foldl Rplus acc (snd <$> l))%R
            /\ forall e, e ∈ l -> (acc + snd e <= foldl Rplus acc (snd <$> l))%R) as Hsum.
  { induction l as [| e l IH]; intros acc Hl; csimpl.
    - split; [lra |]. intros e He. by apply elem_of_nil in He.
    - apply Forall_cons_1 in Hl as [He Hl].
      destruct (IH (acc + snd e)%R Hl) as [H1 H2]. split; [lra |].
      intros e' He'. apply elem_of_cons in He' as [-> | He']; [done |].
      specialize (H2 e' He'). lra. }
  destruct (Hsum _ 0%R Hpos) as [_ Hle]. rewrite Forall_forall in Hpos.
  unfold calculate_fitness_sum. split_all.
  - intros ->. reflexivity.
  - intros Hne. destruct (local_maxima text (max_key_length P)) as [| e l]; [done |].
    specialize (Hle e ltac:(left)). specialize (Hpos e ltac:(left)). lra.
  - intros e He. specialize (Hle e He). specialize (Hpos e He). lra.
Qed.

(** ** The coincidence count under encryption *)

(** X2.  Encrypting with a repeating key does not change the coincidence
    count at the length of the key: the count of the ciphertext is the
    count of the plaintext. *)
Theorem count_equals_encrypted (plain key text : list byte) :
  repeating_key_xor plain key text ->
  1 <= len key ->
  count_equals text (len key) = count_equals plain (len key).
Proof.
  intros Hx HL. rewrite !count_equals_refines by done. f_equal.
  unfold spec_count_equals. rewrite (proj1 Hx).
  destruct (len plain <=? len key); [done |]. f_equal.
  apply list_fmap_ext. intros i offset Hoff.
  apply list_elem_of_lookup_2, elem_of_range in Hoff.
  destruct (char_at_valid key offset Hoff) as [k Hk].
  by rewrite (histogram_max_xor plain key text offset k) by (done || lia).
Qed.

Lemma count_equals_encrypted_witness :
  (repeating_key_xor plain_spaces key_ab text_ABAB /\ 1 <= len key_ab) /\
  count_equals text_ABAB (len key_ab) = count_equals plain_spaces (len key_ab).
Proof.
  assert (1 <= len key_ab) as HL by (unfold len, key_ab; cbn; lia).
  split; [split; [apply repeating_key_xor_sample | assumption] |].
  exact (count_equals_encrypted plain_spaces key_ab text_ABAB
           repeating_key_xor_sample HL).
Defined.

(** ** A key length given by the user *)

(** X12.  When a key length between 1 and the length of the text is given
    and the most frequent character is a byte, [main] does not run the
    estimator, whatever [max_key_length] is, and returns a non-empty list
    of keys, all of the given length. *)
Theorem main_known_length (P : PARAMETERS) (text : list byte) (k most_char : Z) :
  known_key_length P = Some k ->
  1 <= k <= len text ->
  most_frequent_char P = Some most_char ->
  0 <= most_char < 256 ->
  update_key_length P text = Ok P /\
  exists keys, main P text = Ok keys
    /\ keys <> []
    /\ forall key, key ∈ keys -> len key = k.
Proof.
  intros Hk Hrange Hmc Hbyte.
  assert (truthy (known_key_length P) = true) as Ht.
  { rewrite Hk. cbn. destruct (Z.eqb_spec k 0); [lia | done]. }
  assert (update_key_length P text = Ok P) as Hup
    by (unfold update_key_length; by rewrite Ht).
  split; [done |].
  destruct (guess_keys_nonempty P text k most_char Hk Hmc Hbyte ltac:(lia))
    as (keys & Hkeys & Hne & Hlens).
  exists keys. split_all; try done.
  unfold main. rewrite Hup, bind_Ok. unfold guess_probable_keys. by rewrite Hmc.
Qed.

Lemma main_known_length_witness :
  (known_key_length params_abc = Some 3 /\ 1 <= 3 <= len text_abc /\
   most_frequent_char params_abc = Some 32 /\ 0 <= 32 < 256) /\
  exists keys, main params_abc text_abc = Ok keys
    /\ keys <> []
    /\ forall key, key ∈ keys -> len key = 3.
Proof.
  assert (1 <= 3 <= len text_abc) as Hrange by (unfold len, text_abc; cbn; lia).
  assert (0 <= 32 < 256) as Hbyte by lia.
  split; [split_all; (reflexivity || assumption || lia) |].
  exact (proj2 (main_known_length params_abc text_abc 3 32 eq_refl Hrange eq_refl Hbyte)).
Defined.
